(** * A shallow embedding of the rover control logic (rover.h)

    The rover lives on a grid of [int32_t] coordinates, faces one of four
    compass directions and interprets a string of one-character commands
    against a programmable command table.  Every move is checked against a
    list of sensors before it is committed.

    The embedding follows rover.h class by class:
    - [coordinate_t] is [Z] with the 32-bit two's-complement wrap written out;
    - [Direction] is an inductive enum, the casts to and from [int] are
      explicit;
    - the [Action] hierarchy is a tagged union with [Action_execute] as the
      virtual dispatch;
    - mutation of a [Position&] or of the rover's fields is state passing in
      a small state-and-exception monad [M]; a C++ [throw] is the outcome
      [Throws], and the state reached when the exception is raised is kept,
      as it is for an object mutated through a reference;
    - a sensor is a predicate on two coordinates; every call of
      [Sensor::is_safe] is appended to a trace, so that the order and the
      arguments of the calls can be stated. *)

From Stdlib Require Import ZArith String Ascii List Lia.
From Stdlib Require Import DecimalString DecimalZ DecimalPos.
From stdpp Require Import gmap strings.

Open Scope Z_scope.

(** ** Coordinates *)

(** [using coordinate_t = int32_t;] *)
Definition coordinate_t : Type := Z.

Definition INT32_MIN : Z := - 2 ^ 31.
Definition INT32_MAX : Z := 2 ^ 31 - 1.

Definition int32_range (z : Z) : Prop := INT32_MIN <= z <= INT32_MAX.

(** The value an [int32_t] holds after an arithmetic result [z] is stored
    in it on a two's-complement machine. *)
Definition int32_wrap (z : Z) : coordinate_t :=
  (z + 2 ^ 31) mod 2 ^ 32 - 2 ^ 31.

(** [virtual bool is_safe(coordinate_t, coordinate_t) = 0;] *)
Record Sensor : Type := mkSensor {
  Sensor_is_safe : coordinate_t -> coordinate_t -> bool
}.

(** [using sensors_t = std::vector<std::shared_ptr<Sensor>>;] *)
Definition sensors_t : Type := list Sensor.

(** The two sensors of rover_example.cc. *)
Definition TrueSensor : Sensor := mkSensor (fun _ _ => true).
Definition FalseSensor : Sensor := mkSensor (fun _ _ => false).

(** The two exception classes. *)
Inductive exn : Type :=
| DangerousField
| RoverDidNotLand.

(** [const char *what()] of each exception. *)
Definition what (e : exn) : string :=
  match e with
  | DangerousField => "Dangerous Field"
  | RoverDidNotLand => "Rover did not land"
  end.

Record Coordinates : Type := mkCoordinates {
  x : coordinate_t;
  y : coordinate_t
}.

(** [Coordinates::operator+=]: the left operand after the update. *)
Definition Coordinates_add (this other : Coordinates) : Coordinates :=
  {| x := int32_wrap (x this + x other);
     y := int32_wrap (y this + y other) |}.

(** ** Output streams

    An [std::ostream] is the text written to it so far; [os << s] appends. *)
Definition ostream : Type := string.

Definition put_string (os : ostream) (s : string) : ostream := os +:+ s.

(** [os << n] for an [int32_t]: the decimal numeral, with a minus sign for
    negative values. *)
Definition put_int (os : ostream) (n : coordinate_t) : ostream :=
  os +:+ NilZero.string_of_int (Z.to_int n).

(** [operator<<(std::ostream&, const Coordinates&)] *)
Definition Coordinates_print (os : ostream) (coordinates : Coordinates)
  : ostream :=
  put_string
    (put_int (put_string (put_int (put_string os "(") (x coordinates)) ", ")
       (y coordinates))
    ")".

(** ** Directions *)

(** [enum class Direction { NORTH = 0, EAST = 1, SOUTH = 2, WEST = 3 };] *)
Inductive Direction : Type :=
| NORTH
| EAST
| SOUTH
| WEST.

(** [static_cast<int>(d)] *)
Definition Direction_to_int (d : Direction) : Z :=
  match d with
  | NORTH => 0
  | EAST => 1
  | SOUTH => 2
  | WEST => 3
  end.

(** [static_cast<Direction>(i)].  The type has the four enumerators only;
    [DirectionManager.get_next] is the one place that casts, and it casts a
    value between 0 and 3 (lemma [get_next_index]), so the last branch is
    never taken. *)
Definition Direction_of_int (i : Z) : Direction :=
  match i with
  | 0 => NORTH
  | 1 => EAST
  | 2 => SOUTH
  | 3 => WEST
  | _ => NORTH
  end.

Module DirectionManager.

Definition DIRECTIONS_NO : Z := 4.

Definition direction_move : list Coordinates :=
  [ mkCoordinates 0 1; mkCoordinates 1 0;
    mkCoordinates 0 (-1); mkCoordinates (-1) 0 ].

Definition direction_name : list string :=
  [ "NORTH"; "EAST"; "SOUTH"; "WEST" ]%string.

(** C++ [%] truncates towards zero: [Z.rem]. *)
Definition get_next (d : Direction) : Direction :=
  let index := Direction_to_int d in
  Direction_of_int (Z.rem (index + 1) DIRECTIONS_NO).

(** Array subscripts; the index of an enumerator is always inside the
    table (lemma [direction_index_in_table]). *)
Definition get_move (d : Direction) : Coordinates :=
  nth (Z.to_nat (Direction_to_int d)) direction_move (mkCoordinates 0 0).

Definition get_name (d : Direction) : string :=
  nth (Z.to_nat (Direction_to_int d)) direction_name ""%string.

End DirectionManager.

(** ** Positions *)

Record Position : Type := mkPosition {
  coordinates : Coordinates;
  direction : Direction
}.

(** [Position::turn_right]: the object after the call. *)
Definition Position_turn_right (this : Position) : Position :=
  {| coordinates := coordinates this;
     direction := DirectionManager.get_next (direction this) |}.

(** [Position::go_forward]: the object after the call. *)
Definition Position_go_forward (this : Position) : Position :=
  {| coordinates :=
       Coordinates_add (coordinates this)
         (DirectionManager.get_move (direction this));
     direction := direction this |}.

(** [operator<<(std::ostream&, const Position&)] *)
Definition Position_print (os : ostream) (position : Position) : ostream :=
  put_string (put_string (Coordinates_print os (coordinates position)) " ")
    (DirectionManager.get_name (direction position)).

(** ** The monad of mutation, exceptions and sensor calls *)

(** One call [sensor->is_safe(x, y)]. *)
Record query : Type := mkQuery {
  q_sensor : Sensor;
  q_x : coordinate_t;
  q_y : coordinate_t
}.

Definition trace : Type := list query.

Inductive outcome (A : Type) : Type :=
| Returns (a : A)
| Throws (e : exn).

Arguments Returns {A} a.
Arguments Throws {A} e.

Record result (S A : Type) : Type := mkResult {
  res_outcome : outcome A;
  res_state : S;
  res_trace : trace
}.

Arguments mkResult {S A} _ _ _.
Arguments res_outcome {S A} _.
Arguments res_state {S A} _.
Arguments res_trace {S A} _.

(** A computation over a mutable object of type [S]: from the object and
    the sensor calls made so far to an outcome, the object as it is left,
    and the calls made up to then. *)
Definition M (S A : Type) : Type := S -> trace -> result S A.

#[global] Instance M_ret {S : Type} : MRet (M S) :=
  fun A a s t => mkResult (Returns a) s t.

#[global] Instance M_bind {S : Type} : MBind (M S) :=
  fun A B f m s t =>
    let r := m s t in
    match res_outcome r with
    | Returns a => f a (res_state r) (res_trace r)
    | Throws e => mkResult (Throws e) (res_state r) (res_trace r)
    end.

Definition throw {S A : Type} (e : exn) : M S A :=
  fun s t => mkResult (Throws e) s t.

Definition get {S : Type} : M S S :=
  fun s t => mkResult (Returns s) s t.

Definition put {S : Type} (s' : S) : M S unit :=
  fun _ t => mkResult (Returns tt) s' t.

Definition modify {S : Type} (f : S -> S) : M S unit :=
  fun s t => mkResult (Returns tt) (f s) t.

(** [sensor->is_safe(x, y)]: the call is recorded, the sensor answers. *)
Definition call_is_safe {S : Type} (sensor : Sensor) (x y : coordinate_t)
  : M S bool :=
  fun s t => mkResult (Returns (Sensor_is_safe sensor x y)) s
               (t ++ [mkQuery sensor x y]).

#[global] Instance exn_eq_dec : EqDecision exn.
Proof. solve_decision. Defined.

(** [try { body } catch (E&) { handler }]: an exception other than [E]
    passes through. *)
Definition try_catch {S A : Type} (body : M S A) (E : exn) (handler : M S A)
  : M S A :=
  fun s t =>
    let r := body s t in
    match res_outcome r with
    | Returns a => r
    | Throws e =>
        if decide (e = E) then handler (res_state r) (res_trace r) else r
    end.

(** [bool Coordinates::is_safe(std::shared_ptr<Sensor> sensor)] *)
Definition Coordinates_is_safe {S : Type} (this : Coordinates)
  (sensor : Sensor) : M S bool :=
  call_is_safe sensor (x this) (y this).

(** [bool Position::is_safe(std::shared_ptr<Sensor> sensor)] *)
Definition Position_is_safe {S : Type} (this : Position) (sensor : Sensor)
  : M S bool :=
  Coordinates_is_safe (coordinates this) sensor.

(** ** Actions *)

(** The concrete classes below [Action]; [Rotate] and [Move] are abstract
    and add nothing.  A [Compose] owns the vector it was built from. *)
#[warnings="-register-all"]
Inductive Action : Type :=
| RotateLeft
| RotateRight
| MoveForward
| MoveBackward
| Compose (_actions : list Action).

Definition move_forward : Action := MoveForward.
Definition move_backward : Action := MoveBackward.
Definition rotate_left : Action := RotateLeft.
Definition rotate_right : Action := RotateRight.
Definition compose (actions : list Action) : Action := Compose actions.

(** [RotateLeft::execute] *)
Definition RotateLeft_execute (sensors : sensors_t) : M Position unit :=
  modify Position_turn_right ;;
  modify Position_turn_right ;;
  modify Position_turn_right.

(** [RotateRight::execute] *)
Definition RotateRight_execute (sensors : sensors_t) : M Position unit :=
  modify Position_turn_right.

(** The loop shared by the two moves:
    [for (const auto &sensor : sensors)
       if (!new_position.is_safe(sensor)) throw DangerousField();] *)
Fixpoint sensors_loop {S : Type} (new_position : Position)
  (sensors : sensors_t) : M S unit :=
  match sensors with
  | [] => mret tt
  | sensor :: rest =>
      safe ← Position_is_safe new_position sensor;
      if negb safe then throw DangerousField
      else sensors_loop new_position rest
  end.

(** [MoveForward::execute] *)
Definition MoveForward_execute (sensors : sensors_t) : M Position unit :=
  p ← get;
  let new_position := Position_go_forward p in
  sensors_loop new_position sensors ;;
  put new_position.

(** [MoveBackward::execute] *)
Definition MoveBackward_execute (sensors : sensors_t) : M Position unit :=
  p ← get;
  let new_position := p in
  let new_position := Position_turn_right new_position in
  let new_position := Position_turn_right new_position in
  let new_position := Position_go_forward new_position in
  let new_position := Position_turn_right new_position in
  let new_position := Position_turn_right new_position in
  sensors_loop new_position sensors ;;
  put new_position.

(** The virtual call [action->execute(p, sensors)]; the [Compose] case is
    [Compose::execute], the loop over [_actions]. *)
Fixpoint Action_execute (action : Action) (sensors : sensors_t)
  : M Position unit :=
  match action with
  | RotateLeft => RotateLeft_execute sensors
  | RotateRight => RotateRight_execute sensors
  | MoveForward => MoveForward_execute sensors
  | MoveBackward => MoveBackward_execute sensors
  | Compose _actions =>
      (fix loop (l : list Action) : M Position unit :=
         match l with
         | [] => mret tt
         | _action :: l' => Action_execute _action sensors ;; loop l'
         end) _actions
  end.

(** [Compose::execute] by itself. *)
Definition Compose_execute (_actions : list Action) (sensors : sensors_t)
  : M Position unit :=
  Action_execute (Compose _actions) sensors.

(** ** The rover *)

(** [using commands_t = std::map<command_name_t, std::shared_ptr<Action>>;] *)
Record Rover : Type := mkRover {
  landed : bool;
  stopped : bool;
  position : Position;
  commands : gmap ascii Action;
  sensors : sensors_t
}.

(** The constructor [Rover(commands_t, sensors_t)]. *)
Definition Rover_new (commands_ : gmap ascii Action) (sensors_ : sensors_t)
  : Rover :=
  {| landed := false;
     stopped := false;
     position := mkPosition (mkCoordinates 0 0) NORTH;
     commands := commands_;
     sensors := sensors_ |}.

Definition set_landed (b : bool) (r : Rover) : Rover :=
  {| landed := b; stopped := stopped r; position := position r;
     commands := commands r; sensors := sensors r |}.

Definition set_stopped (b : bool) (r : Rover) : Rover :=
  {| landed := landed r; stopped := b; position := position r;
     commands := commands r; sensors := sensors r |}.

Definition set_position (p : Position) (r : Rover) : Rover :=
  {| landed := landed r; stopped := stopped r; position := p;
     commands := commands r; sensors := sensors r |}.

(** A member function called on the [position] field of the rover. *)
Definition on_position {A : Type} (m : M Position A) : M Rover A :=
  fun r t =>
    let res := m (position r) t in
    mkResult (res_outcome res) (set_position (res_state res) r)
      (res_trace res).

(** [operator<<(std::ostream&, const Rover&)] *)
Definition Rover_print (os : ostream) (rover : Rover) : ostream :=
  if negb (landed rover) then put_string os "unknown"
  else
    let os := Position_print os (position rover) in
    if stopped rover then put_string os " stopped" else os.

(** The body of the [try] block of [Rover::execute]: the loop over the
    characters of the command list.  [commands.count(command) == 0] is a
    failed lookup; [break] ends the loop. *)
Fixpoint commands_loop (command_list : string) : M Rover unit :=
  match command_list with
  | EmptyString => mret tt
  | String command rest =>
      r ← get;
      match commands r !! command with
      | None => modify (set_stopped true)
      | Some action =>
          on_position (Action_execute action (sensors r)) ;;
          commands_loop rest
      end
  end.

(** [Rover::execute] *)
Definition Rover_execute (command_list : string) : M Rover unit :=
  r ← get;
  if landed r then
    modify (set_stopped false) ;;
    try_catch (commands_loop command_list) DangerousField
      (modify (set_stopped true))
  else throw RoverDidNotLand.

(** [Rover::land] *)
Definition Rover_land (coordinates : Coordinates) (direction : Direction)
  : M Rover unit :=
  modify (set_position (mkPosition coordinates direction)) ;;
  modify (set_landed true) ;;
  modify (set_stopped false).

(** [get_string_in_ostream] of rover_example.cc *)
Definition get_string_in_ostream (rover : Rover) : string :=
  Rover_print ""%string rover.

(** ** The builder *)

Record RoverBuilder : Type := mkRoverBuilder {
  builder_commands : gmap ascii Action;
  builder_sensors : sensors_t
}.

(** [RoverBuilder()] *)
Definition RoverBuilder_new : RoverBuilder :=
  mkRoverBuilder ∅ [].

(** [commands[name] = std::move(action)]: a later binding of the same
    character replaces the earlier one. *)
Definition program_command (name : ascii) (action : Action)
  (this : RoverBuilder) : RoverBuilder :=
  mkRoverBuilder (<[name := action]> (builder_commands this))
    (builder_sensors this).

(** [sensors.push_back(std::move(sensor))] *)
Definition add_sensor (sensor : Sensor) (this : RoverBuilder)
  : RoverBuilder :=
  mkRoverBuilder (builder_commands this) (builder_sensors this ++ [sensor]).

(** [RoverBuilder::build]: the rover it returns.  The command table is
    copied and the sensor vector is moved into the rover; the builder is
    not modelled after the call. *)
Definition build (this : RoverBuilder) : Rover :=
  Rover_new (builder_commands this) (builder_sensors this).

(** ** Clients of the rover *)

(** A call of one of the two public member functions. *)
Inductive call : Type :=
| CallLand (coordinates : Coordinates) (direction : Direction)
| CallExecute (command_list : string).

Definition do_call (c : call) : M Rover unit :=
  match c with
  | CallLand coordinates direction => Rover_land coordinates direction
  | CallExecute command_list => Rover_execute command_list
  end.

(** A client that makes the calls one after the other and catches an
    exception that escapes a call, as [main] of rover_example.cc does
    around its first [execute]: the rover and the sensor calls after the
    last call. *)
Fixpoint run_calls (cs : list call) (r : Rover) (t : trace) : Rover * trace :=
  match cs with
  | [] => (r, t)
  | c :: cs' =>
      let res := do_call c r t in
      run_calls cs' (res_state res) (res_trace res)
  end.

(** The rovers of rover_example.cc. *)
Definition example_rover : Rover :=
  build
    (add_sensor TrueSensor
    (add_sensor TrueSensor
    (program_command "U" (compose [rotate_right; rotate_right])
    (program_command "L" rotate_left
    (program_command "R" rotate_right
    (program_command "B" move_backward
    (program_command "F" move_forward RoverBuilder_new))))))).

Definition broken_rover : Rover :=
  build
    (add_sensor FalseSensor
    (program_command "X" move_forward RoverBuilder_new)).

(** The first rover after [land({0, 0}, Direction::EAST)] and
    [execute("FFBRLU")], and the second one after
    [land({-1, -1}, Direction::WEST)]. *)
Definition example_rover_at_work : Rover :=
  res_state
    (Rover_execute "FFBRLU"
       (res_state (Rover_land (mkCoordinates 0 0) EAST example_rover []))
       []).

Definition broken_rover_landed : Rover :=
  res_state (Rover_land (mkCoordinates (-1) (-1)) WEST broken_rover []).

(** ** Reference definitions, written from the specification *)

(** The display name of a direction. *)
Definition Direction_display_name (d : Direction) : string :=
  match d with
  | NORTH => "NORTH"
  | EAST => "EAST"
  | SOUTH => "SOUTH"
  | WEST => "WEST"
  end.

(** The unit displacement vector of a direction. *)
Definition Direction_unit_vector (d : Direction) : Coordinates :=
  match d with
  | NORTH => mkCoordinates 0 1
  | EAST => mkCoordinates 1 0
  | SOUTH => mkCoordinates 0 (-1)
  | WEST => mkCoordinates (-1) 0
  end.

Definition Coordinates_negate (c : Coordinates) : Coordinates :=
  {| x := - x c; y := - y c |}.

(** "Translate by the negated unit vector of the current heading, heading
    unchanged." *)
Definition backward_translation (p : Position) : Position :=
  {| coordinates :=
       Coordinates_add (coordinates p)
         (Coordinates_negate (Direction_unit_vector (direction p)));
     direction := direction p |}.

(** The sensor [s] reports the coordinates [c] safe. *)
Definition safe_at (c : Coordinates) (s : Sensor) : Prop :=
  Sensor_is_safe s (x c) (y c) = true.

(** The call that asks the sensor [s] about the coordinates [c]. *)
Definition ask (c : Coordinates) (s : Sensor) : query :=
  mkQuery s (x c) (y c).


(** The decimal numeral of an integer. *)
Definition decimal (n : Z) : string := NilZero.string_of_int (Z.to_int n).

(** "(x, y) DIRNAME", with " stopped" appended when the flag is set. *)
Definition landed_display (p : Position) (is_stopped : bool) : string :=
  ("(" +:+ decimal (x (coordinates p)) +:+ ", "
       +:+ decimal (y (coordinates p)) +:+ ") "
       +:+ Direction_display_name (direction p)
       +:+ (if is_stopped then " stopped" else ""))%string.

(** A sensor that reports every cell safe except those with the given
    abscissa. *)
Definition WallSensor (wall : coordinate_t) : Sensor :=
  mkSensor (fun x _ => negb (x =? wall)).

(** Two forward moves composed into one command. *)
Definition double_step : Action := compose [move_forward; move_forward].

(** A rover with the double step bound to [U], with a wall at abscissa 3,
    landed at the origin and facing east. *)
Definition walled_rover : Rover :=
  res_state
    (Rover_land (mkCoordinates 0 0) EAST
       (build
          (add_sensor (WallSensor 3)
          (program_command "U" double_step
          (program_command "F" move_forward RoverBuilder_new))))
       []).

(** The copy [new_position] of [MoveBackward::execute] when the sensor loop
    is reached: two turns, a step, two turns. *)
Definition backward_candidate (p : Position) : Position :=
  Position_turn_right
    (Position_turn_right
       (Position_go_forward
          (Position_turn_right (Position_turn_right p)))).

(** "Check the candidate, then commit": the move [m], started at the
    position [p] after the sensor calls [t],
    - commits [candidate] and returns when every sensor reports the
      candidate's coordinates safe, having asked every sensor once, in
      list order, about those coordinates;
    - fails with [DangerousField] at the first sensor [u] that reports them
      unsafe, with the position still [p], having asked the sensors up to
      [u] and none after it;
    - so it returns, and the position is the candidate, exactly when all
      sensors report the candidate safe. *)
Definition check_then_commit (m : M Position unit) (candidate : Position)
  (sensors : sensors_t) (p : Position) (t : trace) : Prop :=
  let c := coordinates candidate in
  (Forall (safe_at c) sensors ->
     m p t = mkResult (Returns tt) candidate (t ++ map (ask c) sensors))
  /\ (forall pre u post,
        sensors = pre ++ u :: post ->
        Forall (safe_at c) pre -> ~ safe_at c u ->
        m p t = mkResult (Throws DangerousField) p
                  (t ++ map (ask c) (pre ++ [u])))
  /\ (res_outcome (m p t) = Returns tt <-> Forall (safe_at c) sensors)
  /\ (res_state (m p t) = candidate <-> Forall (safe_at c) sensors).

(** ** Further reference definitions *)

(** The rotations and moves an action comes down to, in the order in which
    [Action_execute] reaches them. *)
Fixpoint Action_leaves (action : Action) : list Action :=
  match action with
  | Compose _actions =>
      (fix go (l : list Action) : list Action :=
         match l with
         | [] => []
         | _action :: l' => Action_leaves _action ++ go l'
         end) _actions
  | leaf => [leaf]
  end.

(** The action is not a [Compose]. *)
Definition is_leaf (action : Action) : bool :=
  match action with
  | Compose _ => false
  | _ => true
  end.

(** No move occurs in the action, at any depth. *)
Fixpoint turns_only (action : Action) : bool :=
  match action with
  | RotateLeft | RotateRight => true
  | MoveForward | MoveBackward => false
  | Compose _actions =>
      (fix go (l : list Action) : bool :=
         match l with
         | [] => true
         | _action :: l' => turns_only _action && go l'
         end) _actions
  end.

(** Every sensor of the list reports every cell safe. *)
Definition all_clear (sensors : sensors_t) : Prop :=
  forall s : Sensor, In s sensors ->
    forall x y : coordinate_t, Sensor_is_safe s x y = true.

(** The cell [c] is where the rover landed, or every sensor reports it
    safe. *)
Definition cell_allowed (sensors : sensors_t) (c0 c : Coordinates) : Prop :=
  c = c0 \/ Forall (safe_at c) sensors.

(** The character [c] is bound to the action [a] in the command table. *)
Definition bound_to (r : Rover) (c : ascii) (a : Action) : Prop :=
  commands r !! c = Some a.

(** Every character of the string is bound in the command table. *)
Fixpoint all_bound (r : Rover) (s : string) : Prop :=
  match s with
  | EmptyString => True
  | String c rest => is_Some (commands r !! c) /\ all_bound r rest
  end.

(** A quarter turn clockwise of a displacement. *)
Definition quarter_turn (v : Coordinates) : Coordinates :=
  {| x := y v; y := - x v |}.

(** Both coordinates are [int32_t] values. *)
Definition Coordinates_wf (c : Coordinates) : Prop :=
  int32_range (x c) /\ int32_range (y c).

(** The command list that repeats one character. *)
Definition repeat_command (c : ascii) (n : nat) : string :=
  string_of_list_ascii (repeat c n).

(** The character [c] does not occur in the string. *)
Fixpoint free_of (c : ascii) (s : string) : Prop :=
  match s with
  | EmptyString => True
  | String c' rest => c' <> c /\ free_of c rest
  end.

(** The arguments of a sensor call are [int32_t] values. *)
Definition query_wf (q : query) : Prop :=
  int32_range (q_x q) /\ int32_range (q_y q).

(** The backward move spelled out with the other actions: a half turn, a
    forward move, a half turn. *)
Definition spelled_backward : Action :=
  compose [rotate_right; rotate_right; move_forward;
           rotate_right; rotate_right].

(** The two sensor lists hold the same sensors, in any order and any number
    of times. *)
Definition same_sensors (l l' : sensors_t) : Prop :=
  forall s : Sensor, In s l <-> In s l'.

(** The two rovers differ at most in the order and the repetitions of
    their sensors. *)
Definition same_but_sensor_order (r r' : Rover) : Prop :=
  landed r = landed r' /\ stopped r = stopped r'
  /\ position r = position r' /\ commands r = commands r'
  /\ same_sensors (sensors r) (sensors r').

(** The position [n] cells ahead of [p], with the wrap at the limits of the
    coordinate range. *)
Definition cells_ahead (n : nat) (p : Position) : Position :=
  let v := DirectionManager.get_move (direction p) in
  {| coordinates :=
       {| x := int32_wrap (x (coordinates p) + Z.of_nat n * x v);
          y := int32_wrap (y (coordinates p) + Z.of_nat n * y v) |};
     direction := direction p |}.

(** A double step wrapped in a [Compose] of its own. *)
Definition wrapped_double_step : Action := compose [double_step].

(** The walled rover with the wrapped double step bound to [V] as well. *)
Definition deep_walled_rover : Rover :=
  res_state
    (Rover_land (mkCoordinates 0 0) EAST
       (build
          (add_sensor (WallSensor 3)
          (program_command "V" wrapped_double_step
          (program_command "U" double_step
          (program_command "F" move_forward RoverBuilder_new)))))
       []).

(** The action is one of the two moves. *)
Definition is_move (action : Action) : Prop :=
  action = MoveForward \/ action = MoveBackward.

(** * Properties *)

(** ** 32-bit arithmetic *)

Lemma int32_wrap_range (z : Z) : int32_range (int32_wrap z).
Proof.
  unfold int32_range, int32_wrap, INT32_MIN, INT32_MAX.
  pose proof (Z.mod_pos_bound (z + 2 ^ 31) (2 ^ 32) ltac:(lia)). lia.
Qed.

Lemma int32_wrap_id (z : Z) : int32_range z -> int32_wrap z = z.
Proof.
  unfold int32_range, int32_wrap, INT32_MIN, INT32_MAX. intros Hz.
  rewrite Z.mod_small; lia.
Qed.

Lemma int32_wrap_congruent (z : Z) : int32_wrap z mod 2 ^ 32 = z mod 2 ^ 32.
Proof.
  unfold int32_wrap.
  rewrite Zminus_mod, Zmod_mod, <- Zminus_mod.
  f_equal. lia.
Qed.

Lemma int32_wrap_above (z : Z) :
  INT32_MAX < z <= INT32_MAX + 2 ^ 32 -> int32_wrap z = z - 2 ^ 32.
Proof.
  unfold int32_wrap, INT32_MAX. intros Hz.
  replace (z + 2 ^ 31) with (z - 2 ^ 31 + 1 * 2 ^ 32) by lia.
  rewrite Z_mod_plus_full, Z.mod_small; lia.
Qed.

Lemma int32_wrap_below (z : Z) :
  INT32_MIN - 2 ^ 32 <= z < INT32_MIN -> int32_wrap z = z + 2 ^ 32.
Proof.
  unfold int32_wrap, INT32_MIN. intros Hz.
  replace (z + 2 ^ 31) with (z + 2 ^ 32 + 2 ^ 31 + (-1) * 2 ^ 32) by lia.
  rewrite Z_mod_plus_full, Z.mod_small; lia.
Qed.

(** The sum of two [int32_t] values as the machine stores it. *)
Lemma int32_wrap_sum (a b : Z) :
  int32_range a -> int32_range b ->
  int32_wrap (a + b) =
    if INT32_MAX <? a + b then a + b - 2 ^ 32
    else if a + b <? INT32_MIN then a + b + 2 ^ 32
    else a + b.
Proof.
  intros Ha Hb. unfold int32_range, INT32_MIN, INT32_MAX in Ha, Hb.
  destruct (Z.ltb_spec INT32_MAX (a + b)) as [Hhi | Hhi].
  - apply int32_wrap_above. unfold INT32_MAX in *. lia.
  - destruct (Z.ltb_spec (a + b) INT32_MIN) as [Hlo | Hlo].
    + apply int32_wrap_below. unfold INT32_MIN in *. lia.
    + apply int32_wrap_id. split; assumption.
Qed.

(** ** Directions *)

Lemma Direction_of_to_int (d : Direction) :
  Direction_of_int (Direction_to_int d) = d.
Proof. destruct d; reflexivity. Qed.

Lemma Direction_to_int_range (d : Direction) :
  0 <= Direction_to_int d < DirectionManager.DIRECTIONS_NO.
Proof. destruct d; cbn; unfold DirectionManager.DIRECTIONS_NO; lia. Qed.

(** The cast in [get_next] receives a value between 0 and 3, and the
    enumerator it yields has that value. *)
Lemma get_next_index (d : Direction) :
  let i := Z.rem (Direction_to_int d + 1) DirectionManager.DIRECTIONS_NO in
  0 <= i < DirectionManager.DIRECTIONS_NO
  /\ Direction_to_int (DirectionManager.get_next d) = i.
Proof.
  destruct d; vm_compute; intuition discriminate.
Qed.

(** The subscripts of [get_move] and [get_name] are inside the tables. *)
Lemma direction_index_in_table (d : Direction) :
  (Z.to_nat (Direction_to_int d) < length DirectionManager.direction_move
   /\ Z.to_nat (Direction_to_int d) < length DirectionManager.direction_name)%nat.
Proof. destruct d; cbn; lia. Qed.

Lemma get_move_unit_vector (d : Direction) :
  DirectionManager.get_move d = Direction_unit_vector d.
Proof. destruct d; reflexivity. Qed.

Lemma get_name_display_name (d : Direction) :
  DirectionManager.get_name d = Direction_display_name d.
Proof. destruct d; reflexivity. Qed.

Lemma get_next_four (d : Direction) :
  DirectionManager.get_next
    (DirectionManager.get_next
       (DirectionManager.get_next (DirectionManager.get_next d))) = d.
Proof. destruct d; reflexivity. Qed.

(** Two successor steps turn the unit vector into its negation. *)
Lemma get_move_opposite (d : Direction) :
  DirectionManager.get_move
    (DirectionManager.get_next (DirectionManager.get_next d))
  = Coordinates_negate (Direction_unit_vector d).
Proof. destruct d; reflexivity. Qed.

(** C6: the successor of a direction steps through NORTH, EAST, SOUTH, WEST
    and back to NORTH; every direction is one of these four, its successor
    differs from it, no fewer than four steps return to it, and four steps
    do. *)
Theorem C6_get_next_cycle :
  DirectionManager.get_next NORTH = EAST
  /\ DirectionManager.get_next EAST = SOUTH
  /\ DirectionManager.get_next SOUTH = WEST
  /\ DirectionManager.get_next WEST = NORTH
  /\ (forall d : Direction, d = NORTH \/ d = EAST \/ d = SOUTH \/ d = WEST)
  /\ (forall d : Direction,
        Nat.iter 4 DirectionManager.get_next d = d
        /\ Nat.iter 1 DirectionManager.get_next d <> d
        /\ Nat.iter 2 DirectionManager.get_next d <> d
        /\ Nat.iter 3 DirectionManager.get_next d <> d).
Proof.
  repeat split; try reflexivity.
  - destruct d; auto.
  - apply get_next_four.
  - destruct d; discriminate.
  - destruct d; discriminate.
  - destruct d; discriminate.
Qed.

(** C9: adding a delta to a coordinate pair adds componentwise; each
    component of the result is a 32-bit signed integer congruent to the
    mathematical sum modulo 2^32, so it is the sum itself when that fits and
    the sum moved by 2^32 when it passes a limit. *)
Theorem C9_translate_wraps (c delta : Coordinates) :
  int32_range (x c) -> int32_range (y c) ->
  int32_range (x delta) -> int32_range (y delta) ->
  let r := Coordinates_add c delta in
  int32_range (x r) /\ int32_range (y r)
  /\ x r mod 2 ^ 32 = (x c + x delta) mod 2 ^ 32
  /\ y r mod 2 ^ 32 = (y c + y delta) mod 2 ^ 32
  /\ x r = (if INT32_MAX <? x c + x delta then x c + x delta - 2 ^ 32
            else if x c + x delta <? INT32_MIN then x c + x delta + 2 ^ 32
            else x c + x delta)
  /\ y r = (if INT32_MAX <? y c + y delta then y c + y delta - 2 ^ 32
            else if y c + y delta <? INT32_MIN then y c + y delta + 2 ^ 32
            else y c + y delta).
Proof.
  intros Hx Hy Hdx Hdy r. subst r. unfold Coordinates_add. cbn [x y].
  repeat split; try apply int32_wrap_range; try apply int32_wrap_congruent.
  - apply int32_wrap_sum; assumption.
  - apply int32_wrap_sum; assumption.
Qed.

Lemma C9_translate_wraps_witness :
  let r := Coordinates_add (mkCoordinates INT32_MAX INT32_MIN)
             (mkCoordinates 1 (-1)) in
  x r = INT32_MIN /\ y r = INT32_MAX.
Proof.
  destruct (C9_translate_wraps (mkCoordinates INT32_MAX INT32_MIN)
              (mkCoordinates 1 (-1)))
    as (_ & _ & _ & _ & Hx & Hy);
    [ vm_compute; intuition discriminate .. | ].
  split; [ rewrite Hx | rewrite Hy ]; reflexivity.
Defined.

(** ** The monad *)

Lemma bind_returns {S A B : Type} (m : M S A) (f : A -> M S B)
  (s : S) (t : trace) (a : A) :
  res_outcome (m s t) = Returns a ->
  (m ≫= f) s t = f a (res_state (m s t)) (res_trace (m s t)).
Proof. intros H. unfold mbind, M_bind. cbv zeta. rewrite H. reflexivity. Qed.

Lemma bind_throws {S A B : Type} (m : M S A) (f : A -> M S B)
  (s : S) (t : trace) (e : exn) :
  res_outcome (m s t) = Throws e ->
  (m ≫= f) s t = mkResult (Throws e) (res_state (m s t)) (res_trace (m s t)).
Proof. intros H. unfold mbind, M_bind. cbv zeta. rewrite H. reflexivity. Qed.

Lemma result_eta {S A : Type} (r : result S A) :
  r = mkResult (res_outcome r) (res_state r) (res_trace r).
Proof. destruct r; reflexivity. Qed.

(** ** The sensor loop *)

Lemma safe_at_dec (c : Coordinates) (s : Sensor) :
  {safe_at c s} + {~ safe_at c s}.
Proof. unfold safe_at. destruct (Sensor_is_safe s (x c) (y c)); auto. Qed.

Lemma sensors_loop_cons {S : Type} (np : Position) (u : Sensor)
  (rest : sensors_t) (s : S) (t : trace) :
  sensors_loop np (u :: rest) s t =
    if Sensor_is_safe u (x (coordinates np)) (y (coordinates np))
    then sensors_loop np rest s (t ++ [ask (coordinates np) u])
    else mkResult (Throws DangerousField) s (t ++ [ask (coordinates np) u]).
Proof.
  cbn [sensors_loop]. unfold mbind, M_bind, Position_is_safe,
    Coordinates_is_safe, call_is_safe, ask. cbn.
  destruct (Sensor_is_safe u _ _); reflexivity.
Qed.

Lemma sensors_loop_all_safe {S : Type} (np : Position) (sensors : sensors_t)
  (s : S) (t : trace) :
  Forall (safe_at (coordinates np)) sensors ->
  sensors_loop np sensors s t =
    mkResult (Returns tt) s (t ++ map (ask (coordinates np)) sensors).
Proof.
  intros Hall. revert t.
  induction Hall as [| u rest Hu _ IH]; intros t.
  - cbn. rewrite app_nil_r. reflexivity.
  - rewrite sensors_loop_cons. unfold safe_at in Hu. rewrite Hu.
    rewrite IH. cbn [map]. rewrite <- app_assoc. reflexivity.
Qed.

Lemma sensors_loop_first_unsafe {S : Type} (np : Position)
  (pre : sensors_t) (u : Sensor) (post : sensors_t) (s : S) (t : trace) :
  Forall (safe_at (coordinates np)) pre ->
  ~ safe_at (coordinates np) u ->
  sensors_loop np (pre ++ u :: post) s t =
    mkResult (Throws DangerousField) s
      (t ++ map (ask (coordinates np)) (pre ++ [u])).
Proof.
  intros Hpre Hu. revert t.
  induction Hpre as [| v rest Hv _ IH]; intros t.
  - cbn [app]. rewrite sensors_loop_cons.
    unfold safe_at in Hu. apply not_true_is_false in Hu. rewrite Hu.
    reflexivity.
  - cbn [app]. rewrite sensors_loop_cons. unfold safe_at in Hv. rewrite Hv.
    rewrite IH. cbn [map app]. rewrite <- app_assoc. reflexivity.
Qed.

(** A sensor list is all safe, or splits at its first unsafe sensor. *)
Lemma sensors_split (c : Coordinates) (sensors : sensors_t) :
  Forall (safe_at c) sensors
  \/ exists pre u post,
       sensors = pre ++ u :: post /\ Forall (safe_at c) pre /\ ~ safe_at c u.
Proof.
  induction sensors as [| v rest IH].
  - left. constructor.
  - destruct (safe_at_dec c v) as [Hv | Hv].
    + destruct IH as [Hall | (pre & u & post & -> & Hpre & Hu)].
      * left. constructor; assumption.
      * right. exists (v :: pre), u, post. repeat split; auto.
    + right. exists [], v, rest. repeat split; auto.
Qed.

Lemma unsafe_not_all_safe (c : Coordinates) (pre : sensors_t) (u : Sensor)
  (post : sensors_t) :
  ~ safe_at c u -> ~ Forall (safe_at c) (pre ++ u :: post).
Proof.
  intros Hu Hall. apply Forall_app in Hall as [_ Hall].
  apply Forall_cons_iff in Hall as [Hu' _]. contradiction.
Qed.


(** ** Rotations and moves *)

(** A wrapped step of one cell never lands on the cell it started from. *)
Lemma int32_wrap_step_moves (a d : Z) :
  d = 1 \/ d = -1 -> int32_wrap (a + d) <> a.
Proof.
  intros Hd Heq. unfold int32_wrap in Heq.
  rewrite Z.mod_eq in Heq by lia.
  remember ((a + d + 2 ^ 31) / 2 ^ 32) as q. lia.
Qed.

Ltac step_moves H :=
  refine (int32_wrap_step_moves _ _ _ H); solve [auto].

Lemma go_forward_moves (p : Position) : Position_go_forward p <> p.
Proof.
  destruct p as [[px py] d]. unfold Position_go_forward, Coordinates_add.
  rewrite get_move_unit_vector.
  cbn [coordinates direction x y]. intros Heq.
  injection Heq as Hx Hy.
  destruct d; cbn [Direction_unit_vector x y] in Hx, Hy;
    first [ step_moves Hx | step_moves Hy ].
Qed.

(** The two turns, the step and the two turns of the backward move amount
    to the backward translation. *)
Lemma backward_candidate_translation (p : Position) :
  backward_candidate p = backward_translation p.
Proof.
  destruct p as [c d].
  unfold backward_candidate, backward_translation, Position_turn_right,
    Position_go_forward. cbn [coordinates direction].
  rewrite get_move_opposite, get_next_four. reflexivity.
Qed.

Lemma backward_candidate_moves (p : Position) : backward_candidate p <> p.
Proof.
  rewrite backward_candidate_translation.
  destruct p as [[px py] d]. unfold backward_translation, Coordinates_add.
  cbn [coordinates direction x y]. intros Heq.
  injection Heq as Hx Hy.
  destruct d;
    cbn [Coordinates_negate Direction_unit_vector x y Z.opp] in Hx, Hy;
    first [ step_moves Hx | step_moves Hy ].
Qed.

Lemma MoveForward_run (sensors : sensors_t) (p : Position) (t : trace) :
  Action_execute MoveForward sensors p t =
    (sensors_loop (Position_go_forward p) sensors ;;
     put (Position_go_forward p)) p t.
Proof. reflexivity. Qed.

Lemma MoveBackward_run (sensors : sensors_t) (p : Position) (t : trace) :
  Action_execute MoveBackward sensors p t =
    (sensors_loop (backward_candidate p) sensors ;;
     put (backward_candidate p)) p t.
Proof. reflexivity. Qed.

(** Any computation that runs the sensor loop on a candidate and then
    stores the candidate checks and commits. *)
Lemma loop_then_put_checks (candidate : Position) (sensors : sensors_t)
  (p : Position) (t : trace) :
  candidate <> p ->
  check_then_commit (sensors_loop candidate sensors ;; put candidate)
    candidate sensors p t.
Proof.
  intros Hmoves. unfold check_then_commit. cbv zeta.
  assert (Hsafe : Forall (safe_at (coordinates candidate)) sensors ->
            (sensors_loop candidate sensors ;; put candidate) p t =
            mkResult (Returns tt) candidate
              (t ++ map (ask (coordinates candidate)) sensors)).
  { intros Hall.
    pose proof (sensors_loop_all_safe candidate sensors p t Hall) as Hloop.
    rewrite (bind_returns _ _ p t tt) by (rewrite Hloop; reflexivity).
    rewrite Hloop. reflexivity. }
  assert (Hunsafe : forall pre u post,
            sensors = pre ++ u :: post ->
            Forall (safe_at (coordinates candidate)) pre ->
            ~ safe_at (coordinates candidate) u ->
            (sensors_loop candidate sensors ;; put candidate) p t =
            mkResult (Throws DangerousField) p
              (t ++ map (ask (coordinates candidate)) (pre ++ [u]))).
  { intros pre u post -> Hpre Hu.
    pose proof (sensors_loop_first_unsafe candidate pre u post p t Hpre Hu)
      as Hloop.
    rewrite (bind_throws _ _ p t DangerousField)
      by (rewrite Hloop; reflexivity).
    rewrite Hloop. reflexivity. }
  split; [exact Hsafe |]. split; [exact Hunsafe |].
  destruct (sensors_split (coordinates candidate) sensors)
    as [Hall | (pre & u & post & Heq & Hpre & Hu)].
  - rewrite (Hsafe Hall). cbn. split; split; auto.
  - rewrite (Hunsafe pre u post Heq Hpre Hu). cbn. subst sensors.
    split; split; intros H.
    + discriminate.
    + exfalso. eapply unsafe_not_all_safe; eassumption.
    + exfalso. apply Hmoves. symmetry. exact H.
    + exfalso. eapply unsafe_not_all_safe; eassumption.
Qed.

(** C2: each of the two moves builds its candidate on a copy (the forward
    step, or two turns, a step and two turns), asks the sensors in list
    order about the candidate's coordinates, fails with DangerousField at
    the first unsafe report with the caller's position unchanged, and
    stores the candidate exactly when all sensors report it safe. *)
Theorem C2_moves_check_then_commit (sensors : sensors_t) (p : Position)
  (t : trace) :
  check_then_commit (Action_execute MoveForward sensors)
    (Position_go_forward p) sensors p t
  /\ check_then_commit (Action_execute MoveBackward sensors)
       (backward_candidate p) sensors p t.
Proof.
  split.
  - pose proof (loop_then_put_checks (Position_go_forward p) sensors p t
                  (go_forward_moves p)) as H.
    unfold check_then_commit in *. rewrite MoveForward_run. exact H.
  - pose proof (loop_then_put_checks (backward_candidate p) sensors p t
                  (backward_candidate_moves p)) as H.
    unfold check_then_commit in *. rewrite MoveBackward_run. exact H.
Qed.

(** A forward move towards the wall passes; the next one is refused by the
    wall sensor, after the sensor before it was asked, and the position
    stays. *)
Lemma C2_moves_check_then_commit_witness :
  let sensors := [TrueSensor; WallSensor 2; TrueSensor] in
  Action_execute MoveForward sensors
    (mkPosition (mkCoordinates 0 0) EAST) []
  = mkResult (Returns tt) (mkPosition (mkCoordinates 1 0) EAST)
      (map (ask (mkCoordinates 1 0)) sensors)
  /\ Action_execute MoveBackward sensors
       (mkPosition (mkCoordinates 3 0) EAST) []
     = mkResult (Throws DangerousField) (mkPosition (mkCoordinates 3 0) EAST)
         (map (ask (mkCoordinates 2 0)) [TrueSensor; WallSensor 2]).
Proof.
  cbv zeta. split.
  - destruct (C2_moves_check_then_commit [TrueSensor; WallSensor 2; TrueSensor]
                (mkPosition (mkCoordinates 0 0) EAST) [])
      as [(Hsafe & _) _].
    apply Hsafe. repeat constructor.
  - destruct (C2_moves_check_then_commit [TrueSensor; WallSensor 2; TrueSensor]
                (mkPosition (mkCoordinates 3 0) EAST) [])
      as [_ (_ & Hunsafe & _)].
    apply (Hunsafe [TrueSensor] (WallSensor 2) [TrueSensor]).
    + reflexivity.
    + repeat constructor.
    + unfold safe_at. vm_compute. discriminate.
Defined.


(** C7: a left rotation followed by a right one, and a right rotation
    followed by a left one, return normally and leave the position and the
    sensor calls as they were; a rotation alone returns normally, asks no
    sensor, keeps the coordinates and advances the direction by three
    successor steps (left) or one (right). *)
Theorem C7_rotations_cancel (sensors : sensors_t) (p : Position) (t : trace) :
  (Action_execute RotateLeft sensors ;; Action_execute RotateRight sensors)
    p t = mkResult (Returns tt) p t
  /\ (Action_execute RotateRight sensors ;; Action_execute RotateLeft sensors)
       p t = mkResult (Returns tt) p t
  /\ Action_execute RotateLeft sensors p t =
       mkResult (Returns tt)
         {| coordinates := coordinates p;
            direction := Nat.iter 3 DirectionManager.get_next (direction p) |}
         t
  /\ Action_execute RotateRight sensors p t =
       mkResult (Returns tt)
         {| coordinates := coordinates p;
            direction := DirectionManager.get_next (direction p) |}
         t.
Proof.
  destruct p as [c d].
  repeat split;
    cbn [Action_execute]; unfold RotateLeft_execute, RotateRight_execute,
      mbind, M_bind, modify, Position_turn_right;
    cbn [res_outcome res_state res_trace coordinates direction];
    rewrite ?get_next_four; reflexivity.
Qed.

(** ** Actions *)

(** Induction over actions, with the hypothesis for every child of a
    [Compose]. *)
Lemma Action_children_ind (P : Action -> Prop) :
  P RotateLeft -> P RotateRight -> P MoveForward -> P MoveBackward ->
  (forall l : list Action, Forall P l -> P (Compose l)) ->
  forall a : Action, P a.
Proof.
  intros HL HR HF HB HC.
  fix IH 1. intros [ | | | | l].
  - exact HL.
  - exact HR.
  - exact HF.
  - exact HB.
  - apply HC. induction l as [| a l IHl]; constructor.
    + apply IH.
    + exact IHl.
Qed.

Lemma Compose_nil_run (sensors : sensors_t) (p : Position) (t : trace) :
  Action_execute (Compose []) sensors p t = mkResult (Returns tt) p t.
Proof. reflexivity. Qed.

Lemma Compose_cons_run (sensors : sensors_t) (a : Action) (l : list Action)
  (p : Position) (t : trace) :
  Action_execute (Compose (a :: l)) sensors p t =
    (Action_execute a sensors ;; Action_execute (Compose l) sensors) p t.
Proof. reflexivity. Qed.

(** A [Compose] over a concatenation runs the first part and, when that
    returns, the second part from where the first one stopped. *)
Lemma Compose_app_run (sensors : sensors_t) (l1 l2 : list Action)
  (p : Position) (t : trace) :
  Action_execute (Compose (l1 ++ l2)) sensors p t =
    (Action_execute (Compose l1) sensors ;;
     Action_execute (Compose l2) sensors) p t.
Proof.
  revert p t. induction l1 as [| a l1 IH]; intros p t.
  - reflexivity.
  - cbn [app]. rewrite Compose_cons_run.
    unfold mbind, M_bind. cbv zeta.
    rewrite Compose_cons_run. unfold mbind, M_bind. cbv zeta.
    destruct (res_outcome (Action_execute a sensors p t)) as [[] | e].
    + rewrite IH. reflexivity.
    + reflexivity.
Qed.

(** A move that fails leaves the position it was called on. *)
Lemma move_fails_in_place (a : Action) (sensors : sensors_t) (p : Position)
  (t : trace) :
  a = MoveForward \/ a = MoveBackward ->
  res_outcome (Action_execute a sensors p t) = Throws DangerousField ->
  res_state (Action_execute a sensors p t) = p.
Proof.
  intros [-> | ->] Hthrows.
  - rewrite MoveForward_run in *.
    destruct (loop_then_put_checks (Position_go_forward p) sensors p t
                (go_forward_moves p)) as (Hsafe & Hunsafe & _).
    destruct (sensors_split (coordinates (Position_go_forward p)) sensors)
      as [Hall | (pre & u & post & Heq & Hpre & Hu)].
    + rewrite (Hsafe Hall) in Hthrows. discriminate.
    + rewrite (Hunsafe pre u post Heq Hpre Hu). reflexivity.
  - rewrite MoveBackward_run in *.
    destruct (loop_then_put_checks (backward_candidate p) sensors p t
                (backward_candidate_moves p)) as (Hsafe & Hunsafe & _).
    destruct (sensors_split (coordinates (backward_candidate p)) sensors)
      as [Hall | (pre & u & post & Heq & Hpre & Hu)].
    + rewrite (Hsafe Hall) in Hthrows. discriminate.
    + rewrite (Hunsafe pre u post Heq Hpre Hu). reflexivity.
Qed.

(** The only exception an action raises is [DangerousField]. *)
Lemma Action_throws_DangerousField (a : Action) (sensors : sensors_t) :
  forall (p : Position) (t : trace) (e : exn),
    res_outcome (Action_execute a sensors p t) = Throws e ->
    e = DangerousField.
Proof.
  induction a as [ | | | | l IHl] using Action_children_ind; intros p t e.
  - cbn. discriminate.
  - cbn. discriminate.
  - rewrite MoveForward_run.
    destruct (loop_then_put_checks (Position_go_forward p) sensors p t
                (go_forward_moves p)) as (Hsafe & Hunsafe & _).
    destruct (sensors_split (coordinates (Position_go_forward p)) sensors)
      as [Hall | (pre & u & post & Heq & Hpre & Hu)].
    + rewrite (Hsafe Hall). discriminate.
    + rewrite (Hunsafe pre u post Heq Hpre Hu). cbn. congruence.
  - rewrite MoveBackward_run.
    destruct (loop_then_put_checks (backward_candidate p) sensors p t
                (backward_candidate_moves p)) as (Hsafe & Hunsafe & _).
    destruct (sensors_split (coordinates (backward_candidate p)) sensors)
      as [Hall | (pre & u & post & Heq & Hpre & Hu)].
    + rewrite (Hsafe Hall). discriminate.
    + rewrite (Hunsafe pre u post Heq Hpre Hu). cbn. congruence.
  - revert p t. induction IHl as [| a l Ha _ IH]; intros p t.
    + cbn. discriminate.
    + rewrite Compose_cons_run. unfold mbind, M_bind. cbv zeta.
      destruct (res_outcome (Action_execute a sensors p t)) as [[] | e'] eqn:Hout.
      * apply IH.
      * cbn. intros [= <-]. eapply Ha. exact Hout.
Qed.

(** *** The rotations and moves an action comes down to *)

Lemma bind_ret_r {S : Type} (m : M S unit) (s : S) (t : trace) :
  (m ;; mret tt) s t = m s t.
Proof.
  unfold mbind, M_bind, mret, M_ret. cbv zeta.
  destruct (m s t) as [[[] | e] s' t']; reflexivity.
Qed.

Lemma Compose_singleton_run (sensors : sensors_t) (a : Action)
  (p : Position) (t : trace) :
  Action_execute (Compose [a]) sensors p t = Action_execute a sensors p t.
Proof. rewrite Compose_cons_run. apply bind_ret_r. Qed.

Lemma Action_leaves_Compose_cons (a : Action) (l : list Action) :
  Action_leaves (Compose (a :: l))
  = Action_leaves a ++ Action_leaves (Compose l).
Proof. reflexivity. Qed.

Lemma Action_leaves_run (sensors : sensors_t) (a : Action) :
  forall (p : Position) (t : trace),
    Action_execute (Compose (Action_leaves a)) sensors p t
    = Action_execute a sensors p t.
Proof.
  induction a as [ | | | | l IHl] using Action_children_ind; intros p t;
    try apply Compose_singleton_run.
  revert p t. induction IHl as [| a l Ha _ IH]; intros p t.
  - reflexivity.
  - rewrite Action_leaves_Compose_cons, Compose_app_run, Compose_cons_run.
    unfold mbind, M_bind. cbv zeta. rewrite Ha.
    destruct (res_outcome (Action_execute a sensors p t)) as [[] | e].
    + apply IH.
    + reflexivity.
Qed.

Lemma Action_leaves_are_leaves (a : Action) :
  Forall (fun b => is_leaf b = true) (Action_leaves a).
Proof.
  induction a as [ | | | | l IHl] using Action_children_ind;
    try (repeat constructor).
  induction IHl as [| a l Ha _ IH].
  - constructor.
  - rewrite Action_leaves_Compose_cons. apply Forall_app. split; assumption.
Qed.

Lemma leaf_throws_is_move (sensors : sensors_t) (h : Action) (p : Position)
  (t : trace) (e : exn) :
  is_leaf h = true ->
  res_outcome (Action_execute h sensors p t) = Throws e ->
  is_move h.
Proof.
  unfold is_move. destruct h; cbn; intros Hleaf Hthrows;
    try discriminate; auto.
Qed.

(** A [Compose] whose first children succeed and whose next child fails
    ends as that child does. *)
Lemma Compose_fails_at (sensors : sensors_t) (done : list Action)
  (m : Action) (rest : list Action) (p : Position) (t : trace) :
  let r_done := Action_execute (Compose done) sensors p t in
  let r_m := Action_execute m sensors (res_state r_done) (res_trace r_done) in
  res_outcome r_done = Returns tt ->
  res_outcome r_m = Throws DangerousField ->
  Action_execute (Compose (done ++ m :: rest)) sensors p t = r_m.
Proof.
  cbv zeta. intros Hdone Hm.
  rewrite Compose_app_run.
  rewrite (bind_returns _ _ p t tt) by exact Hdone.
  rewrite Compose_cons_run.
  rewrite (bind_throws _ _ _ _ DangerousField) by exact Hm.
  symmetry. rewrite <- Hm. apply result_eta.
Qed.

(** A failing list of rotations and moves splits at the move that was
    refused. *)
Lemma leaves_first_refusal (sensors : sensors_t) (l : list Action) :
  Forall (fun b => is_leaf b = true) l ->
  forall (p : Position) (t : trace),
    res_outcome (Action_execute (Compose l) sensors p t)
    = Throws DangerousField ->
    exists (done : list Action) (m : Action) (rest : list Action),
      l = done ++ m :: rest
      /\ is_move m
      /\ res_outcome (Action_execute (Compose done) sensors p t) = Returns tt
      /\ res_outcome
           (Action_execute m sensors
              (res_state (Action_execute (Compose done) sensors p t))
              (res_trace (Action_execute (Compose done) sensors p t)))
         = Throws DangerousField.
Proof.
  intros Hleaves. induction Hleaves as [| h l Hh _ IH]; intros p t Hfail.
  - discriminate.
  - destruct (res_outcome (Action_execute h sensors p t)) as [[] | e]
      eqn:Hout.
    + rewrite Compose_cons_run in Hfail.
      rewrite (bind_returns _ _ p t tt) in Hfail by exact Hout.
      destruct (IH _ _ Hfail) as (done & m & rest & -> & Hm & Hdone & Hthrows).
      exists (h :: done), m, rest.
      rewrite Compose_cons_run.
      rewrite (bind_returns _ _ p t tt) by exact Hout.
      auto.
    + pose proof (Action_throws_DangerousField h sensors p t e Hout) as ->.
      exists [], h, l. rewrite Compose_nil_run.
      cbn [res_state res_trace res_outcome app].
      repeat split; [| exact Hout].
      apply (leaf_throws_is_move sensors h p t DangerousField Hh Hout).
Qed.

(** When the rotations and moves of an action split at a move that is
    refused after the ones before it have been applied, the action fails
    there: with the position they produced and with the sensor calls up to
    the refusal. *)
Lemma Action_refused_at (sensors : sensors_t) (a : Action)
  (done : list Action) (m : Action) (rest : list Action) (p : Position)
  (t : trace) :
  Action_leaves a = done ++ m :: rest ->
  let r_done := Action_execute (Compose done) sensors p t in
  let r_m := Action_execute m sensors (res_state r_done) (res_trace r_done) in
  res_outcome r_done = Returns tt ->
  res_outcome r_m = Throws DangerousField ->
  Action_execute a sensors p t =
    mkResult (Throws DangerousField) (res_state r_done) (res_trace r_m).
Proof.
  cbv zeta. intros Hsplit Hdone Hm.
  rewrite <- Action_leaves_run, Hsplit.
  rewrite (Compose_fails_at sensors done m rest p t Hdone Hm).
  assert (Hmove : is_move m).
  { pose proof (Action_leaves_are_leaves a) as Hleaves.
    rewrite Hsplit in Hleaves. apply Forall_app in Hleaves as [_ Hleaves].
    apply Forall_cons_iff in Hleaves as [Hleaf _].
    exact (leaf_throws_is_move sensors m _ _ DangerousField Hleaf Hm). }
  rewrite (result_eta (Action_execute m sensors _ _)), Hm.
  cbn [res_outcome res_state res_trace].
  rewrite (move_fails_in_place m sensors _ _ Hmove Hm). reflexivity.
Qed.

(** An action that fails has such a split. *)
Lemma Action_first_refusal (sensors : sensors_t) (a : Action) (p : Position)
  (t : trace) :
  res_outcome (Action_execute a sensors p t) = Throws DangerousField ->
  exists (done : list Action) (m : Action) (rest : list Action),
    Action_leaves a = done ++ m :: rest
    /\ is_move m
    /\ res_outcome (Action_execute (Compose done) sensors p t) = Returns tt
    /\ res_outcome
         (Action_execute m sensors
            (res_state (Action_execute (Compose done) sensors p t))
            (res_trace (Action_execute (Compose done) sensors p t)))
       = Throws DangerousField.
Proof.
  intros Hfail. rewrite <- Action_leaves_run in Hfail.
  apply (leaves_first_refusal sensors (Action_leaves a)
           (Action_leaves_are_leaves a) p t Hfail).
Qed.

(** C4 (as the code has it): a [Compose] applies its children in order to
    the one position.  With no child it does nothing.  When the children
    before [a] have all succeeded and [a] succeeds, the [Compose] up to [a]
    succeeds with what [a] left from their cumulative effect.  When [a]
    fails with DangerousField, the [Compose] fails with it at once: the
    outcome, the position and the sensor calls are those [a] left, whatever
    children follow, and nothing is rolled back.  The position [a] leaves
    is found in the rotations and moves that [a] comes down to, at any
    depth of nesting and in the order of execution: they split at a move
    that is refused after the ones before it ([done]) have been applied,
    and the position is the one the earlier children produced, advanced by
    [done]; every such split gives that position.  When [a] is itself a
    forward or backward move, this is exactly the position the earlier
    children produced. *)
Theorem C4_compose_fail_fast (sensors : sensors_t) (pre : list Action)
  (a : Action) (post : list Action) (p : Position) (t : trace) :
  let r_pre := Action_execute (Compose pre) sensors p t in
  let r_a := Action_execute a sensors (res_state r_pre) (res_trace r_pre) in
  let r_done := fun done : list Action =>
    Action_execute (Compose done) sensors (res_state r_pre) (res_trace r_pre) in
  let r_refused := fun (done : list Action) (m : Action) =>
    Action_execute m sensors (res_state (r_done done))
      (res_trace (r_done done)) in
  Action_execute (Compose []) sensors p t = mkResult (Returns tt) p t
  /\ (res_outcome r_pre = Returns tt ->
      (res_outcome r_a = Returns tt ->
         Action_execute (Compose (pre ++ [a])) sensors p t = r_a)
      /\ (res_outcome r_a = Throws DangerousField ->
            Action_execute (Compose (pre ++ a :: post)) sensors p t = r_a
            /\ (a = MoveForward \/ a = MoveBackward ->
                  res_state r_a = res_state r_pre)
            /\ Forall (fun b => is_leaf b = true) (Action_leaves a)
            /\ (exists (done : list Action) (m : Action)
                   (rest : list Action),
                  Action_leaves a = done ++ m :: rest
                  /\ is_move m
                  /\ res_outcome (r_done done) = Returns tt
                  /\ res_outcome (r_refused done m) = Throws DangerousField
                  /\ Action_execute (Compose (pre ++ a :: post)) sensors p t
                     = mkResult (Throws DangerousField)
                         (res_state (r_done done))
                         (res_trace (r_refused done m)))
            /\ (forall (done : list Action) (m : Action)
                   (rest : list Action),
                  Action_leaves a = done ++ m :: rest ->
                  res_outcome (r_done done) = Returns tt ->
                  res_outcome (r_refused done m) = Throws DangerousField ->
                  Action_execute (Compose (pre ++ a :: post)) sensors p t
                  = mkResult (Throws DangerousField)
                      (res_state (r_done done))
                      (res_trace (r_refused done m))))).
Proof.
  cbv zeta. split; [reflexivity |].
  intros Hpre. split.
  - intros Ha. rewrite Compose_app_run.
    rewrite (bind_returns _ _ p t tt) by exact Hpre.
    rewrite Compose_cons_run.
    rewrite (bind_returns _ _ _ _ tt) by exact Ha.
    rewrite Compose_nil_run. symmetry. rewrite <- Ha. apply result_eta.
  - intros Ha.
    pose proof (Compose_fails_at sensors pre a post p t Hpre Ha) as Hrun.
    cbv zeta in Hrun.
    split; [exact Hrun |].
    split; [intros Hmove; apply move_fails_in_place; assumption |].
    split; [apply Action_leaves_are_leaves |].
    split.
    + destruct (Action_first_refusal sensors a _ _ Ha)
        as (done & m & rest & Hsplit & Hmove & Hdone & Hm).
      exists done, m, rest.
      repeat split; try assumption.
      rewrite Hrun.
      apply (Action_refused_at sensors a done m rest _ _ Hsplit Hdone Hm).
    + intros done m rest Hsplit Hdone Hm. rewrite Hrun.
      apply (Action_refused_at sensors a done m rest _ _ Hsplit Hdone Hm).
Qed.

(** From the origin, facing east, with a wall at abscissa 3: a forward move
    and a double step succeed as a [Compose]; a double step after two
    forward moves fails at its second move, one cell further than the two
    moves had reached; a single move after three forward moves fails where
    they had arrived; and after one forward move a double step wrapped in a
    [Compose] of its own fails at (2, 0), where the first move of the
    double step arrived. *)
Lemma C4_compose_fail_fast_witness :
  let sensors := [WallSensor 3] in
  let p := mkPosition (mkCoordinates 0 0) EAST in
  res_state (Action_execute (Compose ([move_forward] ++ [move_forward]))
               sensors p [])
  = mkPosition (mkCoordinates 2 0) EAST
  /\ Action_execute
       (Compose ([move_forward] ++ double_step :: [rotate_right]))
       sensors p []
     = mkResult (Throws DangerousField) (mkPosition (mkCoordinates 2 0) EAST)
         (map (ask (mkCoordinates 1 0)) sensors
          ++ map (ask (mkCoordinates 2 0)) sensors
          ++ map (ask (mkCoordinates 3 0)) sensors)
  /\ res_state (Action_execute move_forward sensors
                  (mkPosition (mkCoordinates 2 0) EAST) [])
     = mkPosition (mkCoordinates 2 0) EAST
  /\ res_state
       (Action_execute
          (Compose ([move_forward] ++ wrapped_double_step :: []))
          sensors p [])
     = mkPosition (mkCoordinates 2 0) EAST.
Proof.
  cbv zeta. split; [| split; [| split]].
  - destruct (C4_compose_fail_fast [WallSensor 3] [move_forward] move_forward
                [] (mkPosition (mkCoordinates 0 0) EAST) [])
      as [_ Hpre].
    destruct (Hpre eq_refl) as [Hok _].
    rewrite (Hok eq_refl). reflexivity.
  - destruct (C4_compose_fail_fast [WallSensor 3] [move_forward] double_step
                [rotate_right] (mkPosition (mkCoordinates 0 0) EAST) [])
      as [_ Hpre].
    destruct (Hpre eq_refl) as [_ Hfail].
    destruct (Hfail eq_refl) as [Hrun _].
    rewrite Hrun. reflexivity.
  - destruct (C4_compose_fail_fast [WallSensor 3] [] move_forward
                [] (mkPosition (mkCoordinates 2 0) EAST) [])
      as [_ Hpre].
    destruct (Hpre eq_refl) as [_ Hfail].
    destruct (Hfail eq_refl) as (_ & Hleaf & _).
    exact (Hleaf (or_introl eq_refl)).
  - destruct (C4_compose_fail_fast [WallSensor 3] [move_forward]
                wrapped_double_step [] (mkPosition (mkCoordinates 0 0) EAST)
                [])
      as [_ Hpre].
    destruct (Hpre eq_refl) as [_ Hfail].
    destruct (Hfail eq_refl) as (_ & _ & _ & _ & Hsplit).
    rewrite (Hsplit [move_forward] move_forward [] eq_refl eq_refl eq_refl).
    reflexivity.
Defined.

(** C4 as stated fails when the failing child is itself a [Compose].  With
    a wall at abscissa 3, from the origin facing east, the first child (a
    forward move) succeeds and leaves (1, 0); the second child, a double
    step, fails with DangerousField at its second move; the [Compose] ends
    at (2, 0), not at the position the succeeded child produced. *)
Lemma C4_counterexample :
  let sensors := [WallSensor 3] in
  let p := mkPosition (mkCoordinates 0 0) EAST in
  let r_pre := Action_execute (Compose [move_forward]) sensors p [] in
  let r_a :=
    Action_execute double_step sensors (res_state r_pre) (res_trace r_pre) in
  let r := Action_execute (Compose [move_forward; double_step]) sensors p [] in
  res_outcome r_pre = Returns tt
  /\ res_state r_pre = mkPosition (mkCoordinates 1 0) EAST
  /\ res_outcome r_a = Throws DangerousField
  /\ res_outcome r = Throws DangerousField
  /\ res_state r = mkPosition (mkCoordinates 2 0) EAST
  /\ res_state r <> res_state r_pre.
Proof.
  cbv zeta. repeat split; try reflexivity.
  vm_compute. discriminate.
Qed.

(** ** The command loop *)

Lemma commands_loop_nil (r : Rover) (t : trace) :
  commands_loop ""%string r t = mkResult (Returns tt) r t.
Proof. reflexivity. Qed.

Lemma commands_loop_unbound (c : ascii) (rest : string) (r : Rover)
  (t : trace) :
  commands r !! c = None ->
  commands_loop (String c rest) r t =
    mkResult (Returns tt) (set_stopped true r) t.
Proof.
  intros Hc. cbn [commands_loop]. unfold mbind, M_bind, get. cbn.
  rewrite Hc. reflexivity.
Qed.

Lemma commands_loop_bound (c : ascii) (rest : string) (a : Action)
  (r : Rover) (t : trace) :
  commands r !! c = Some a ->
  commands_loop (String c rest) r t =
    let r_a := Action_execute a (sensors r) (position r) t in
    match res_outcome r_a with
    | Returns _ =>
        commands_loop rest (set_position (res_state r_a) r) (res_trace r_a)
    | Throws e =>
        mkResult (Throws e) (set_position (res_state r_a) r) (res_trace r_a)
    end.
Proof.
  intros Hc. cbn [commands_loop]. unfold mbind, M_bind, get, on_position. cbn.
  rewrite Hc. cbn. reflexivity.
Qed.

(** The loop returns or raises [DangerousField]; it changes neither the
    landed flag, nor the command table, nor the sensor list. *)
Lemma commands_loop_frame (s : string) :
  forall (r : Rover) (t : trace),
    let res := commands_loop s r t in
    (res_outcome res = Returns tt \/ res_outcome res = Throws DangerousField)
    /\ landed (res_state res) = landed r
    /\ commands (res_state res) = commands r
    /\ sensors (res_state res) = sensors r.
Proof.
  induction s as [| c rest IH]; intros r t; cbv zeta.
  - rewrite commands_loop_nil. cbn. auto.
  - destruct (commands r !! c) as [a |] eqn:Hc.
    + rewrite (commands_loop_bound c rest a r t Hc). cbv zeta.
      destruct (res_outcome (Action_execute a (sensors r) (position r) t))
        as [[] | e] eqn:Hout.
      * apply (IH (set_position _ r)).
      * cbn. apply Action_throws_DangerousField in Hout. subst e. auto.
    + rewrite (commands_loop_unbound c rest r t Hc). cbn. auto.
Qed.

(** The loop over a concatenation, started with the stopped flag clear: the
    second part runs exactly when the first part returned without setting
    the flag. *)
Lemma commands_loop_app (pre rest : string) :
  forall (r : Rover) (t : trace),
    stopped r = false ->
    commands_loop (pre +:+ rest) r t =
      let res := commands_loop pre r t in
      match res_outcome res with
      | Returns _ =>
          if stopped (res_state res) then res
          else commands_loop rest (res_state res) (res_trace res)
      | Throws _ => res
      end.
Proof.
  induction pre as [| c pre IH]; intros r t Hrun; cbv zeta.
  - change (""%string +:+ rest) with rest.
    rewrite commands_loop_nil. cbn. rewrite Hrun. reflexivity.
  - change (String c pre +:+ rest) with (String c (pre +:+ rest)).
    destruct (commands r !! c) as [a |] eqn:Hc.
    + rewrite !(commands_loop_bound c _ a r t Hc). cbv zeta.
      destruct (res_outcome (Action_execute a (sensors r) (position r) t))
        as [[] | e] eqn:Hout.
      * apply IH. exact Hrun.
      * reflexivity.
    + rewrite !(commands_loop_unbound c _ r t Hc). reflexivity.
Qed.

(** ** [Rover::execute] *)

Lemma Rover_execute_unlanded (s : string) (r : Rover) (t : trace) :
  landed r = false ->
  Rover_execute s r t = mkResult (Throws RoverDidNotLand) r t.
Proof.
  intros Hl. unfold Rover_execute, mbind, M_bind, get. cbn.
  rewrite Hl. reflexivity.
Qed.

Lemma Rover_execute_landed (s : string) (r : Rover) (t : trace) :
  landed r = true ->
  Rover_execute s r t =
    let res := commands_loop s (set_stopped false r) t in
    match res_outcome res with
    | Returns _ => res
    | Throws _ =>
        mkResult (Returns tt) (set_stopped true (res_state res))
          (res_trace res)
    end.
Proof.
  intros Hl. unfold Rover_execute, mbind, M_bind, get, try_catch, modify.
  cbn. rewrite Hl. cbn.
  destruct (commands_loop_frame s (set_stopped false r) t) as [[Ho | Ho] _];
    rewrite Ho; reflexivity.
Qed.

(** A landed rover's [execute] returns; the rover stays landed and keeps
    its command table and sensor list. *)
Lemma Rover_execute_landed_frame (s : string) (r : Rover) (t : trace) :
  landed r = true ->
  let res := Rover_execute s r t in
  res_outcome res = Returns tt
  /\ landed (res_state res) = true
  /\ commands (res_state res) = commands r
  /\ sensors (res_state res) = sensors r.
Proof.
  intros Hl. cbv zeta. rewrite (Rover_execute_landed s r t Hl). cbv zeta.
  destruct (commands_loop_frame s (set_stopped false r) t)
    as ([Ho | Ho] & Hland & Hcmd & Hsens); rewrite Ho; cbn;
    rewrite ?Ho, ?Hland, ?Hcmd, ?Hsens; cbn; auto.
Qed.

(** When [execute] on a landed rover ends with the stopped flag clear, it
    is the command loop run to its end. *)
Lemma Rover_execute_not_stopped (s : string) (r : Rover) (t : trace) :
  landed r = true ->
  stopped (res_state (Rover_execute s r t)) = false ->
  commands_loop s (set_stopped false r) t = Rover_execute s r t
  /\ res_outcome (Rover_execute s r t) = Returns tt.
Proof.
  intros Hl. rewrite (Rover_execute_landed s r t Hl). cbv zeta.
  destruct (commands_loop_frame s (set_stopped false r) t) as [[Ho | Ho] _];
    rewrite Ho; cbn.
  - intros _. split; [reflexivity | exact Ho].
  - discriminate.
Qed.

(** The loop on one more character after a prefix that ran to its end with
    the stopped flag clear. *)
Lemma Rover_execute_after_prefix (r : Rover) (t : trace) (pre rest : string) :
  landed r = true ->
  stopped (res_state (Rover_execute pre r t)) = false ->
  commands_loop (pre +:+ rest) (set_stopped false r) t =
    commands_loop rest (res_state (Rover_execute pre r t))
      (res_trace (Rover_execute pre r t)).
Proof.
  intros Hl Hrun.
  destruct (Rover_execute_not_stopped pre r t Hl Hrun) as [Hloop Hout].
  rewrite commands_loop_app by reflexivity. cbv zeta.
  rewrite Hloop, Hout, Hrun. reflexivity.
Qed.

(** C1 (as the code has it): on a landed rover [execute] always returns
    normally, keeps the rover landed and keeps its command table and sensor
    list; on the empty string it only clears the stopped flag.  Let the
    prefix [pre] run to its end without stopping, and let [c] be the next
    character.
    - If [c] is not bound, the rover stops where [pre] left it, whatever
      follows [c], and no sensor is asked.
    - If the action bound to [c] succeeds, the rover is where the action
      left it, not stopped.
    - If the action bound to [c] fails with DangerousField, the rover stops
      where the failing action left it, whatever follows [c].  That
      position is found in the rotations and moves the action comes down
      to, at any depth of nesting and in the order of execution: they
      split at a move that is refused after the ones before it ([done])
      have been applied, and the rover stops at the position [pre] left,
      advanced by [done]; every such split gives that position.  When the
      action is itself a forward or backward move, this is exactly the
      position [pre] left. *)
Theorem C1_execute_stops_at_first_failure (r : Rover) (t : trace)
  (pre post : string) (c : ascii) :
  landed r = true ->
  let r_pre := Rover_execute pre r t in
  let here := res_state r_pre in
  let r_done := fun done : list Action =>
    Action_execute (Compose done) (sensors r) (position here)
      (res_trace r_pre) in
  let r_refused := fun (done : list Action) (m : Action) =>
    Action_execute m (sensors r) (res_state (r_done done))
      (res_trace (r_done done)) in
  Rover_execute ""%string r t = mkResult (Returns tt) (set_stopped false r) t
  /\ (forall s : string,
        res_outcome (Rover_execute s r t) = Returns tt
        /\ landed (res_state (Rover_execute s r t)) = true
        /\ commands (res_state (Rover_execute s r t)) = commands r
        /\ sensors (res_state (Rover_execute s r t)) = sensors r)
  /\ (stopped here = false ->
      (commands r !! c = None ->
         Rover_execute (pre +:+ String c post) r t =
           mkResult (Returns tt) (set_stopped true here) (res_trace r_pre))
      /\ (forall a : Action,
            commands r !! c = Some a ->
            let r_a :=
              Action_execute a (sensors r) (position here) (res_trace r_pre) in
            (res_outcome r_a = Returns tt ->
               Rover_execute (pre +:+ String c ""%string) r t =
                 mkResult (Returns tt) (set_position (res_state r_a) here)
                   (res_trace r_a))
            /\ (res_outcome r_a = Throws DangerousField ->
                  Rover_execute (pre +:+ String c post) r t =
                    mkResult (Returns tt)
                      (set_stopped true (set_position (res_state r_a) here))
                      (res_trace r_a)
                  /\ (a = MoveForward \/ a = MoveBackward ->
                        res_state r_a = position here)
                  /\ Forall (fun b => is_leaf b = true) (Action_leaves a)
                  /\ (exists (done : list Action) (m : Action)
                         (rest : list Action),
                        Action_leaves a = done ++ m :: rest
                        /\ is_move m
                        /\ res_outcome (r_done done) = Returns tt
                        /\ res_outcome (r_refused done m)
                           = Throws DangerousField
                        /\ Rover_execute (pre +:+ String c post) r t =
                             mkResult (Returns tt)
                               (set_stopped true
                                  (set_position (res_state (r_done done))
                                     here))
                               (res_trace (r_refused done m)))
                  /\ (forall (done : list Action) (m : Action)
                         (rest : list Action),
                        Action_leaves a = done ++ m :: rest ->
                        res_outcome (r_done done) = Returns tt ->
                        res_outcome (r_refused done m)
                        = Throws DangerousField ->
                        Rover_execute (pre +:+ String c post) r t =
                          mkResult (Returns tt)
                            (set_stopped true
                               (set_position (res_state (r_done done)) here))
                            (res_trace (r_refused done m)))))).
Proof.
  intros Hl. cbv zeta.
  split; [rewrite (Rover_execute_landed _ r t Hl); reflexivity |].
  split; [intros s; apply Rover_execute_landed_frame; exact Hl |].
  intros Hrun.
  destruct (Rover_execute_landed_frame pre r t Hl) as (_ & _ & Hcmd & Hsens).
  cbv zeta in Hcmd, Hsens.
  split.
  - intros Hc.
    rewrite (Rover_execute_landed _ r t Hl). cbv zeta.
    rewrite (Rover_execute_after_prefix r t pre _ Hl Hrun).
    rewrite commands_loop_unbound by (rewrite Hcmd; exact Hc).
    reflexivity.
  - intros a Hc. cbv zeta. split.
    + intros Ha.
      rewrite (Rover_execute_landed _ r t Hl). cbv zeta.
      rewrite (Rover_execute_after_prefix r t pre _ Hl Hrun).
      rewrite (commands_loop_bound c _ a) by (rewrite Hcmd; exact Hc).
      cbv zeta. rewrite Hsens, Ha. reflexivity.
    + intros Ha.
      assert (Hstop : Rover_execute (pre +:+ String c post) r t =
                mkResult (Returns tt)
                  (set_stopped true
                     (set_position
                        (res_state
                           (Action_execute a (sensors r)
                              (position (res_state (Rover_execute pre r t)))
                              (res_trace (Rover_execute pre r t))))
                        (res_state (Rover_execute pre r t))))
                  (res_trace
                     (Action_execute a (sensors r)
                        (position (res_state (Rover_execute pre r t)))
                        (res_trace (Rover_execute pre r t))))).
      { rewrite (Rover_execute_landed _ r t Hl). cbv zeta.
        rewrite (Rover_execute_after_prefix r t pre _ Hl Hrun).
        rewrite (commands_loop_bound c _ a) by (rewrite Hcmd; exact Hc).
        cbv zeta. rewrite Hsens, Ha. reflexivity. }
      split; [exact Hstop |].
      split; [intros Hmove; apply move_fails_in_place; assumption |].
      split; [apply Action_leaves_are_leaves |].
      split.
      * destruct (Action_first_refusal (sensors r) a _ _ Ha)
          as (done & m & rest & Hsplit & Hmove & Hdone & Hm).
        exists done, m, rest.
        repeat split; try assumption.
        rewrite Hstop.
        rewrite (Action_refused_at (sensors r) a done m rest _ _ Hsplit
                   Hdone Hm).
        reflexivity.
      * intros done m rest Hsplit Hdone Hm. rewrite Hstop.
        rewrite (Action_refused_at (sensors r) a done m rest _ _ Hsplit
                   Hdone Hm).
        reflexivity.
Qed.

(** The runs of rover_example.cc: ["FXFFF"] stops at the unbound [X] after
    one forward move; then ["FFF"] clears the flag and moves three cells;
    the rover with the sensor that refuses everything stops in place.  And
    the walled rover with a double step wrapped in a [Compose] of its own
    bound to [V]: ["FV"] stops at (2, 0), where the first move inside [V]
    arrived. *)
Lemma C1_execute_stops_at_first_failure_witness :
  get_string_in_ostream
    (res_state (Rover_execute "FXFFF" example_rover_at_work []))
  = "(0, 0) WEST stopped"%string
  /\ get_string_in_ostream
       (res_state (Rover_execute "F" example_rover_at_work []))
     = "(0, 0) WEST"%string
  /\ Rover_execute "X" broken_rover_landed []
     = mkResult (Returns tt) (set_stopped true broken_rover_landed)
         [mkQuery FalseSensor (-2) (-1)]
  /\ get_string_in_ostream
       (res_state (Rover_execute "FV" deep_walled_rover []))
     = "(2, 0) EAST stopped"%string.
Proof.
  split; [| split; [| split]].
  - destruct (C1_execute_stops_at_first_failure example_rover_at_work []
                "F" "FFF" "X" eq_refl) as (_ & _ & Hnext).
    destruct (Hnext eq_refl) as [Hunbound _].
    change ("FXFFF"%string) with ("F" +:+ String "X" "FFF")%string.
    rewrite (Hunbound eq_refl). reflexivity.
  - destruct (C1_execute_stops_at_first_failure example_rover_at_work []
                "" "" "F" eq_refl) as (_ & _ & Hnext).
    destruct (Hnext eq_refl) as [_ Hbound].
    destruct (Hbound move_forward eq_refl) as [Hok _].
    change ("F"%string) with ("" +:+ String "F" "")%string.
    rewrite (Hok eq_refl). reflexivity.
  - destruct (C1_execute_stops_at_first_failure broken_rover_landed []
                "" "" "X" eq_refl) as (_ & _ & Hnext).
    destruct (Hnext eq_refl) as [_ Hbound].
    destruct (Hbound move_forward eq_refl) as [_ Hfail].
    destruct (Hfail eq_refl) as [Hrun _].
    change ("X"%string) with ("" +:+ String "X" "")%string.
    rewrite Hrun. reflexivity.
  - destruct (C1_execute_stops_at_first_failure deep_walled_rover []
                "F" "" "V" eq_refl) as (_ & _ & Hnext).
    destruct (Hnext eq_refl) as [_ Hbound].
    destruct (Hbound wrapped_double_step eq_refl) as [_ Hfail].
    destruct (Hfail eq_refl) as (_ & _ & _ & _ & Hsplit).
    change ("FV"%string) with ("F" +:+ String "V" "")%string.
    rewrite (Hsplit [move_forward] move_forward [] eq_refl eq_refl eq_refl).
    reflexivity.
Defined.

(** C1 as stated fails when the failing action is a [Compose].  The walled
    rover, landed at the origin facing east, runs ["FU"]: [F] is applied
    and leaves (1, 0); the double step bound to [U] fails with
    DangerousField at its second move.  The rover ends stopped at (2, 0),
    one cell beyond the position produced by the last command that
    succeeded. *)
Lemma C1_counterexample :
  let after_F := Rover_execute "F" walled_rover [] in
  let after_FU := Rover_execute "FU" walled_rover [] in
  landed walled_rover = true
  /\ stopped (res_state after_F) = false
  /\ position (res_state after_F) = mkPosition (mkCoordinates 1 0) EAST
  /\ commands walled_rover !! "U"%char = Some double_step
  /\ res_outcome
       (Action_execute double_step (sensors walled_rover)
          (position (res_state after_F)) (res_trace after_F))
     = Throws DangerousField
  /\ stopped (res_state after_FU) = true
  /\ position (res_state after_FU) = mkPosition (mkCoordinates 2 0) EAST
  /\ position (res_state after_FU) <> position (res_state after_F).
Proof.
  cbv zeta. repeat split; try reflexivity.
  vm_compute. discriminate.
Qed.

(** Calls of [execute] alone leave a rover that has not landed as it is. *)
Lemma run_executes_unlanded (command_lists : list string) (r : Rover)
  (t : trace) :
  landed r = false ->
  run_calls (map CallExecute command_lists) r t = (r, t).
Proof.
  intros Hl. induction command_lists as [| s l IH].
  - reflexivity.
  - cbn [map run_calls do_call].
    rewrite (Rover_execute_unlanded s r t Hl). exact IH.
Qed.

(** C3: [execute] on a rover that has not landed raises RoverDidNotLand to
    its caller, asks no sensor, and leaves every field of the rover (landed,
    stopped, position, command table, sensor list) as it was.  This is so
    for a newly constructed rover, also after any number of earlier calls of
    [execute]. *)
Theorem C3_execute_before_land :
  (forall (s : string) (r : Rover) (t : trace),
     landed r = false ->
     Rover_execute s r t = mkResult (Throws RoverDidNotLand) r t)
  /\ (forall (commands_ : gmap ascii Action) (sensors_ : sensors_t)
        (earlier : list string) (s : string) (t : trace),
        let r := Rover_new commands_ sensors_ in
        run_calls (map CallExecute earlier) r t = (r, t)
        /\ Rover_execute s r t = mkResult (Throws RoverDidNotLand) r t).
Proof.
  split.
  - apply Rover_execute_unlanded.
  - intros cmds sens earlier s t. cbv zeta. split.
    + apply run_executes_unlanded. reflexivity.
    + apply Rover_execute_unlanded. reflexivity.
Qed.

(** The first [execute("F")] of rover_example.cc. *)
Lemma C3_execute_before_land_witness :
  Rover_execute "F" example_rover [] =
    mkResult (Throws RoverDidNotLand) example_rover [].
Proof.
  destruct C3_execute_before_land as [Hthrows _].
  apply (Hthrows "F"%string example_rover [] eq_refl).
Defined.

(** ** Display *)

Lemma string_append_assoc (s1 s2 s3 : string) :
  ((s1 +:+ s2) +:+ s3 = s1 +:+ (s2 +:+ s3))%string.
Proof.
  induction s1 as [| c s1 IH].
  - reflexivity.
  - change (String c ((s1 +:+ s2) +:+ s3) = String c (s1 +:+ (s2 +:+ s3))).
    rewrite IH. reflexivity.
Qed.

Lemma string_append_nil_r (s : string) : (s +:+ "" = s)%string.
Proof.
  induction s as [| c s IH].
  - reflexivity.
  - change (String c (s +:+ "") = String c s). rewrite IH. reflexivity.
Qed.

(** The numeral printed for a coordinate reads back as that coordinate. *)
Lemma decimal_parses (n : Z) :
  option_map Z.of_int (NilZero.int_of_string (decimal n)) = Some n.
Proof.
  unfold decimal. rewrite NilZero.isi.
  - cbn [option_map]. f_equal. apply DecimalZ.of_to.
  - destruct n; cbn; try discriminate. intros [= H].
    revert H. apply Unsigned.to_uint_nonnil.
  - destruct n; cbn; try discriminate. intros [= H].
    revert H. apply Unsigned.to_uint_nonnil.
Qed.

(** Printing a landed rover appends its display to the stream. *)
Lemma Rover_print_landed (os : ostream) (r : Rover) :
  landed r = true ->
  Rover_print os r = (os +:+ landed_display (position r) (stopped r))%string.
Proof.
  intros Hl. unfold Rover_print, Position_print, Coordinates_print,
    put_string, put_int, landed_display, decimal.
  rewrite Hl, get_name_display_name. cbn [negb].
  destruct (stopped r); rewrite ?string_append_assoc, ?string_append_nil_r;
    reflexivity.
Qed.

Lemma Rover_print_unlanded (os : ostream) (r : Rover) :
  landed r = false -> Rover_print os r = (os +:+ "unknown")%string.
Proof. intros Hl. unfold Rover_print, put_string. rewrite Hl. reflexivity. Qed.

Lemma Rover_print_appends (os : ostream) (r : Rover) :
  Rover_print os r = (os +:+ get_string_in_ostream r)%string.
Proof.
  unfold get_string_in_ostream. destruct (landed r) eqn:Hl.
  - rewrite !Rover_print_landed by exact Hl. reflexivity.
  - rewrite !Rover_print_unlanded by exact Hl. reflexivity.
Qed.

Lemma landed_display_not_unknown (p : Position) (b : bool) :
  landed_display p b <> "unknown"%string.
Proof. unfold landed_display. cbn. discriminate. Qed.

(** C8: the display of a rover that has not landed is "unknown"; the display
    of a landed rover is "(x, y) DIRNAME" for its coordinates and the name
    of its direction, followed by " stopped" exactly when the stopped flag
    is set.  Printing appends the display to what the stream holds, so
    printing the same rover again appends the same text again. *)
Theorem C8_display (r : Rover) (os : ostream) :
  (landed r = false -> get_string_in_ostream r = "unknown"%string)
  /\ (landed r = true ->
        get_string_in_ostream r = landed_display (position r) (stopped r))
  /\ Rover_print os r = (os +:+ get_string_in_ostream r)%string
  /\ Rover_print (Rover_print os r) r
     = ((os +:+ get_string_in_ostream r) +:+ get_string_in_ostream r)%string.
Proof.
  split; [| split; [| split]].
  - intros Hl. unfold get_string_in_ostream.
    rewrite Rover_print_unlanded by exact Hl. reflexivity.
  - intros Hl. unfold get_string_in_ostream.
    rewrite Rover_print_landed by exact Hl. reflexivity.
  - apply Rover_print_appends.
  - rewrite !Rover_print_appends. reflexivity.
Qed.

(** The displays asserted in rover_example.cc. *)
Lemma C8_display_witness :
  get_string_in_ostream example_rover = "unknown"%string
  /\ get_string_in_ostream example_rover_at_work = "(1, 0) WEST"%string
  /\ get_string_in_ostream (set_stopped true broken_rover_landed)
     = "(-1, -1) WEST stopped"%string.
Proof.
  split; [| split].
  - destruct (C8_display example_rover ""%string) as [Hunknown _].
    apply (Hunknown eq_refl).
  - destruct (C8_display example_rover_at_work ""%string) as (_ & Hshown & _).
    rewrite (Hshown eq_refl). reflexivity.
  - destruct (C8_display (set_stopped true broken_rover_landed) ""%string)
      as (_ & Hshown & _).
    rewrite (Hshown eq_refl). reflexivity.
Defined.

(** ** The landed flag *)

Lemma Rover_land_run (c : Coordinates) (d : Direction) (r : Rover)
  (t : trace) :
  Rover_land c d r t =
    mkResult (Returns tt)
      {| landed := true; stopped := false; position := mkPosition c d;
         commands := commands r; sensors := sensors r |} t.
Proof. reflexivity. Qed.

Lemma Rover_execute_keeps_landed (s : string) (r : Rover) (t : trace) :
  landed (res_state (Rover_execute s r t)) = landed r.
Proof.
  destruct (landed r) eqn:Hl.
  - apply Rover_execute_landed_frame. exact Hl.
  - rewrite (Rover_execute_unlanded s r t Hl). exact Hl.
Qed.

Lemma do_call_keeps_landed (c : call) (r : Rover) (t : trace) :
  landed r = true -> landed (res_state (do_call c r t)) = true.
Proof.
  intros Hl. destruct c as [c d | s]; cbn [do_call].
  - rewrite Rover_land_run. reflexivity.
  - rewrite Rover_execute_keeps_landed. exact Hl.
Qed.

Lemma run_calls_keeps_landed (cs : list call) :
  forall (r : Rover) (t : trace),
    landed r = true -> landed (fst (run_calls cs r t)) = true.
Proof.
  induction cs as [| c cs IH]; intros r t Hl.
  - exact Hl.
  - cbn [run_calls]. apply IH. apply do_call_keeps_landed. exact Hl.
Qed.

Lemma run_calls_app (cs1 cs2 : list call) :
  forall (r : Rover) (t : trace),
    run_calls (cs1 ++ cs2) r t =
      run_calls cs2 (fst (run_calls cs1 r t)) (snd (run_calls cs1 r t)).
Proof.
  induction cs1 as [| c cs1 IH]; intros r t.
  - reflexivity.
  - cbn [app run_calls]. apply IH.
Qed.

(** C10: a newly constructed rover has not landed; [land] always returns
    and sets the landed flag; [execute] leaves the flag as it finds it,
    whether it returns or raises RoverDidNotLand; so no call clears the
    flag, and after any sequence of calls that contains a [land] the rover
    is landed and its display is not "unknown". *)
Theorem C10_landed_is_monotone :
  (forall (commands_ : gmap ascii Action) (sensors_ : sensors_t),
     landed (Rover_new commands_ sensors_) = false)
  /\ (forall (c : Coordinates) (d : Direction) (r : Rover) (t : trace),
        res_outcome (Rover_land c d r t) = Returns tt
        /\ landed (res_state (Rover_land c d r t)) = true)
  /\ (forall (s : string) (r : Rover) (t : trace),
        landed (res_state (Rover_execute s r t)) = landed r)
  /\ (forall (c : call) (r : Rover) (t : trace),
        landed r = true -> landed (res_state (do_call c r t)) = true)
  /\ (forall (commands_ : gmap ascii Action) (sensors_ : sensors_t)
        (before : list call) (c : Coordinates) (d : Direction)
        (after : list call) (t : trace),
        let r :=
          fst (run_calls (before ++ CallLand c d :: after)
                 (Rover_new commands_ sensors_) t) in
        landed r = true /\ get_string_in_ostream r <> "unknown"%string).
Proof.
  split; [reflexivity |].
  split; [intros c d r t; rewrite Rover_land_run; split; reflexivity |].
  split; [apply Rover_execute_keeps_landed |].
  split; [apply do_call_keeps_landed |].
  intros cmds sens before c d after t. cbv zeta.
  assert (Hl : landed
            (fst (run_calls (before ++ CallLand c d :: after)
                    (Rover_new cmds sens) t)) = true).
  { rewrite run_calls_app. cbn [run_calls do_call].
    apply run_calls_keeps_landed. rewrite Rover_land_run. reflexivity. }
  split; [exact Hl |].
  unfold get_string_in_ostream. rewrite Rover_print_landed by exact Hl.
  apply landed_display_not_unknown.
Qed.

(** The rover of rover_example.cc stays landed through the run that stops
    at the unbound [X]. *)
Lemma C10_landed_is_monotone_witness :
  landed (res_state (Rover_execute "FXFFF" example_rover_at_work [])) = true.
Proof.
  destruct C10_landed_is_monotone as (_ & _ & _ & Hstays & _).
  apply (Hstays (CallExecute "FXFFF") example_rover_at_work [] eq_refl).
Defined.

(** * Further properties *)

(** ** The rover never enters a cell that a sensor refuses *)

Lemma rover_eta (r : Rover) : set_position (position r) r = r.
Proof. destruct r; reflexivity. Qed.

Lemma set_stopped_same (r : Rover) : set_stopped (stopped r) r = r.
Proof. destruct r; reflexivity. Qed.

(** What a move leaves behind: the candidate and all sensors agree, or the
    old position and [DangerousField]. *)
Lemma move_cases (a : Action) (sensors : sensors_t) (p : Position)
  (t : trace) :
  a = MoveForward \/ a = MoveBackward ->
  let r := Action_execute a sensors p t in
  (res_outcome r = Returns tt
   /\ Forall (safe_at (coordinates (res_state r))) sensors
   /\ res_state r =
        match a with
        | MoveForward => Position_go_forward p
        | _ => backward_candidate p
        end)
  \/ (res_outcome r = Throws DangerousField /\ res_state r = p).
Proof.
  intros Hmove. cbv zeta.
  assert (Hcheck : exists candidate,
             check_then_commit (Action_execute a sensors) candidate sensors p t
             /\ candidate = match a with
                             | MoveForward => Position_go_forward p
                             | _ => backward_candidate p
                             end).
  { destruct Hmove as [-> | ->].
    - exists (Position_go_forward p). split; [| reflexivity].
      pose proof (loop_then_put_checks (Position_go_forward p) sensors p t
                    (go_forward_moves p)) as H.
      unfold check_then_commit in *. rewrite MoveForward_run. exact H.
    - exists (backward_candidate p). split; [| reflexivity].
      pose proof (loop_then_put_checks (backward_candidate p) sensors p t
                    (backward_candidate_moves p)) as H.
      unfold check_then_commit in *. rewrite MoveBackward_run. exact H. }
  destruct Hcheck as (candidate & (Hsafe & Hunsafe & _) & Hcand).
  destruct (sensors_split (coordinates candidate) sensors)
    as [Hall | (pre & u & post & Heq & Hpre & Hu)].
  - left. rewrite (Hsafe Hall). cbn. rewrite <- Hcand. auto.
  - right. rewrite (Hunsafe pre u post Heq Hpre Hu). cbn. auto.
Qed.

Lemma Action_keeps_allowed (sensors : sensors_t) (c0 : Coordinates)
  (a : Action) :
  forall (p : Position) (t : trace),
    cell_allowed sensors c0 (coordinates p) ->
    cell_allowed sensors c0
      (coordinates (res_state (Action_execute a sensors p t))).
Proof.
  induction a as [ | | | | l IHl] using Action_children_ind; intros p t Hp.
  - exact Hp.
  - exact Hp.
  - destruct (move_cases MoveForward sensors p t (or_introl eq_refl))
      as [(_ & Hsafe & _) | (_ & ->)]; [right; exact Hsafe | exact Hp].
  - destruct (move_cases MoveBackward sensors p t (or_intror eq_refl))
      as [(_ & Hsafe & _) | (_ & ->)]; [right; exact Hsafe | exact Hp].
  - revert p t Hp. induction IHl as [| a l Ha _ IH]; intros p t Hp.
    + exact Hp.
    + rewrite Compose_cons_run. unfold mbind, M_bind. cbv zeta.
      specialize (Ha p t Hp).
      destruct (res_outcome (Action_execute a sensors p t)) as [[] | e].
      * apply IH. exact Ha.
      * exact Ha.
Qed.

Lemma commands_loop_keeps_allowed (c0 : Coordinates) (s : string) :
  forall (r : Rover) (t : trace),
    cell_allowed (sensors r) c0 (coordinates (position r)) ->
    cell_allowed (sensors r) c0
      (coordinates (position (res_state (commands_loop s r t)))).
Proof.
  induction s as [| c rest IH]; intros r t Hr.
  - exact Hr.
  - destruct (commands r !! c) as [a |] eqn:Hc.
    + rewrite (commands_loop_bound c rest a r t Hc). cbv zeta.
      pose proof (Action_keeps_allowed (sensors r) c0 a (position r) t Hr)
        as Ha.
      destruct (res_outcome (Action_execute a (sensors r) (position r) t))
        as [[] | e].
      * apply (IH (set_position _ r)). exact Ha.
      * exact Ha.
    + rewrite (commands_loop_unbound c rest r t Hc). exact Hr.
Qed.

Lemma Rover_execute_keeps_sensors (s : string) (r : Rover) (t : trace) :
  sensors (res_state (Rover_execute s r t)) = sensors r.
Proof.
  destruct (landed r) eqn:Hl.
  - apply Rover_execute_landed_frame. exact Hl.
  - rewrite (Rover_execute_unlanded s r t Hl). reflexivity.
Qed.

Lemma Rover_execute_keeps_allowed (c0 : Coordinates) (s : string) (r : Rover)
  (t : trace) :
  cell_allowed (sensors r) c0 (coordinates (position r)) ->
  cell_allowed (sensors r) c0
    (coordinates (position (res_state (Rover_execute s r t)))).
Proof.
  intros Hr. destruct (landed r) eqn:Hl.
  - rewrite (Rover_execute_landed s r t Hl). cbv zeta.
    pose proof (commands_loop_keeps_allowed c0 s (set_stopped false r) t Hr)
      as Hloop.
    destruct (res_outcome (commands_loop s (set_stopped false r) t));
      exact Hloop.
  - rewrite (Rover_execute_unlanded s r t Hl). exact Hr.
Qed.

(** X1: whatever an action or a command list does, it leaves the rover on
    the cell it started from or on a cell that every sensor reports safe;
    so after landing on [c0] and any number of [execute] calls the rover is
    on [c0] or on a cell that every sensor of the rover reports safe. *)
Theorem X1_never_on_refused_cell :
  (forall (sensors : sensors_t) (c0 : Coordinates) (a : Action)
      (p : Position) (t : trace),
      cell_allowed sensors c0 (coordinates p) ->
      cell_allowed sensors c0
        (coordinates (res_state (Action_execute a sensors p t))))
  /\ (forall (r : Rover) (c0 : Coordinates) (d0 : Direction)
        (command_lists : list string) (t : trace),
        let r' :=
          fst (run_calls (CallLand c0 d0 :: map CallExecute command_lists)
                 r t) in
        sensors r' = sensors r
        /\ cell_allowed (sensors r) c0 (coordinates (position r'))).
Proof.
  split.
  - intros sensors c0 a p t. apply Action_keeps_allowed.
  - intros r c0 d0 ls t. cbv zeta. cbn [run_calls do_call].
    rewrite Rover_land_run. cbn [res_state res_trace].
    set (r1 := {| landed := true; stopped := false;
                  position := mkPosition c0 d0;
                  commands := commands r; sensors := sensors r |}).
    assert (Hstart : sensors r1 = sensors r
                     /\ cell_allowed (sensors r) c0
                          (coordinates (position r1))).
    { split; [reflexivity | left; reflexivity]. }
    clearbody r1. revert r1 t Hstart.
    induction ls as [| s ls IH]; intros r1 t [Hs Hc].
    + split; assumption.
    + cbn [map run_calls do_call]. apply IH. split.
      * rewrite Rover_execute_keeps_sensors. exact Hs.
      * rewrite <- Hs in *. apply Rover_execute_keeps_allowed. exact Hc.
Qed.

(** The walled rover, whatever it is told, is at the origin or west or
    east of the wall, never on it. *)
Lemma X1_never_on_refused_cell_witness :
  let r' := fst (run_calls
                   (CallLand (mkCoordinates 0 0) EAST
                      :: map CallExecute ["UFU"; "FFFF"]%string)
                   walled_rover []) in
  x (coordinates (position r')) <> 3.
Proof.
  cbv zeta.
  destruct X1_never_on_refused_cell as [_ Hrun].
  destruct (Hrun walled_rover (mkCoordinates 0 0) EAST
              ["UFU"; "FFFF"]%string []) as [_ [Hc | Hc]].
  - rewrite Hc. cbn. discriminate.
  - change (sensors walled_rover) with [WallSensor 3] in Hc.
    apply Forall_inv in Hc. unfold safe_at, WallSensor in Hc.
    cbn [Sensor_is_safe] in Hc.
    intros Hwall. rewrite Hwall in Hc. vm_compute in Hc. discriminate.
Defined.

(** ** Sensors that refuse nothing *)

Lemma all_clear_safe (sensors : sensors_t) (c : Coordinates) :
  all_clear sensors -> Forall (safe_at c) sensors.
Proof.
  intros Hclear. apply List.Forall_forall. intros s Hs.
  unfold safe_at. apply Hclear. exact Hs.
Qed.

Lemma Action_all_clear (sensors : sensors_t) (a : Action) :
  all_clear sensors ->
  forall (p : Position) (t : trace),
    res_outcome (Action_execute a sensors p t) = Returns tt.
Proof.
  intros Hclear.
  induction a as [ | | | | l IHl] using Action_children_ind; intros p t.
  - reflexivity.
  - reflexivity.
  - destruct (loop_then_put_checks (Position_go_forward p) sensors p t
                (go_forward_moves p)) as (_ & _ & Hiff & _).
    rewrite <- MoveForward_run in Hiff.
    apply Hiff. apply all_clear_safe. exact Hclear.
  - destruct (loop_then_put_checks (backward_candidate p) sensors p t
                (backward_candidate_moves p)) as (_ & _ & Hiff & _).
    rewrite <- MoveBackward_run in Hiff.
    apply Hiff. apply all_clear_safe. exact Hclear.
  - revert p t. induction IHl as [| a l Ha _ IH]; intros p t.
    + reflexivity.
    + rewrite Compose_cons_run.
      rewrite (bind_returns _ _ p t tt) by apply Ha.
      apply IH.
Qed.

Lemma commands_loop_all_clear (s : string) :
  forall (r : Rover) (t : trace),
    all_clear (sensors r) ->
    stopped r = false ->
    let res := commands_loop s r t in
    res_outcome res = Returns tt
    /\ (stopped (res_state res) = false <-> all_bound r s).
Proof.
  induction s as [| c rest IH]; intros r t Hclear Hrun; cbv zeta.
  - rewrite commands_loop_nil. cbn. tauto.
  - destruct (commands r !! c) as [a |] eqn:Hc.
    + rewrite (commands_loop_bound c rest a r t Hc). cbv zeta.
      rewrite (Action_all_clear (sensors r) a Hclear).
      destruct (IH (set_position
                      (res_state
                         (Action_execute a (sensors r) (position r) t)) r)
                  (res_trace (Action_execute a (sensors r) (position r) t))
                  Hclear Hrun) as [Hout Hiff].
      split; [exact Hout |].
      rewrite Hiff. cbn [all_bound]. rewrite Hc.
      change (commands (set_position _ r)) with (commands r).
      assert (Hrest : all_bound
                (set_position
                   (res_state (Action_execute a (sensors r) (position r) t))
                   r) rest <-> all_bound r rest).
      { clear. induction rest as [| c' rest IHr]; cbn [all_bound];
          [tauto |].
        change (commands (set_position _ r)) with (commands r).
        rewrite IHr. tauto. }
      rewrite Hrest. split; [intros H; split; [eexists; reflexivity | exact H]
                            | intros [_ H]; exact H].
    + rewrite (commands_loop_unbound c rest r t Hc). cbn.
      split; [reflexivity |].
      cbn [all_bound]. rewrite Hc. split; [discriminate |].
      intros [[a Ha] _]. discriminate.
Qed.

(** X2: when every sensor reports every cell safe (the empty sensor list
    included) no action fails, and [execute] on a landed rover ends stopped
    exactly when the command list has a character that is not bound. *)
Theorem X2_all_clear_never_fails :
  (forall (sensors : sensors_t) (a : Action) (p : Position) (t : trace),
     all_clear sensors ->
     res_outcome (Action_execute a sensors p t) = Returns tt)
  /\ (forall (r : Rover) (s : string) (t : trace),
        all_clear (sensors r) ->
        landed r = true ->
        (stopped (res_state (Rover_execute s r t)) = false <-> all_bound r s)).
Proof.
  split.
  - intros sensors a p t Hclear. apply Action_all_clear. exact Hclear.
  - intros r s t Hclear Hl.
    rewrite (Rover_execute_landed s r t Hl). cbv zeta.
    destruct (commands_loop_all_clear s (set_stopped false r) t Hclear
                eq_refl) as [Hout Hiff].
    cbv zeta in Hout, Hiff. rewrite Hout. rewrite Hiff.
    clear. induction s as [| c rest IH]; cbn [all_bound]; [tauto |].
    change (commands (set_stopped false r)) with (commands r).
    rewrite IH. tauto.
Qed.

(** The first rover of rover_example.cc has two sensors that refuse
    nothing: ["FFBRLU"] does not stop it. *)
Lemma X2_all_clear_never_fails_witness :
  stopped (res_state (Rover_execute "FFBRLU" example_rover_at_work []))
  = false.
Proof.
  destruct X2_all_clear_never_fails as [_ Hrun].
  apply (Hrun example_rover_at_work "FFBRLU"%string []).
  - intros s Hs x0 y0.
    change (sensors example_rover_at_work) with [TrueSensor; TrueSensor] in Hs.
    destruct Hs as [<- | [<- | []]]; reflexivity.
  - reflexivity.
  - cbn [all_bound]. repeat split; eexists; vm_compute; reflexivity.
Defined.

(** ** Actions made of rotations *)

Lemma turns_only_Compose_cons (a : Action) (l : list Action) :
  turns_only (Compose (a :: l)) = turns_only a && turns_only (Compose l).
Proof. reflexivity. Qed.

Lemma Action_turns_only (sensors : sensors_t) (a : Action) :
  turns_only a = true ->
  forall (p : Position) (t : trace),
    let r := Action_execute a sensors p t in
    res_outcome r = Returns tt
    /\ coordinates (res_state r) = coordinates p
    /\ res_trace r = t.
Proof.
  induction a as [ | | | | l IHl] using Action_children_ind;
    intros Hturns p t; cbv zeta.
  - cbn. auto.
  - cbn. auto.
  - discriminate.
  - discriminate.
  - revert p t Hturns. induction IHl as [| a l Ha _ IH]; intros p t Hturns.
    + cbn. auto.
    + rewrite turns_only_Compose_cons in Hturns.
      apply andb_prop in Hturns as [Hta Htl].
      destruct (Ha Hta p t) as (Hout & Hc & Ht).
      rewrite Compose_cons_run.
      rewrite (bind_returns _ _ p t tt) by exact Hout.
      destruct (IH (res_state (Action_execute a sensors p t))
                  (res_trace (Action_execute a sensors p t)) Htl)
        as (Hout' & Hc' & Ht').
      rewrite Hout', Hc', Ht', Hc, Ht. auto.
Qed.

(** X3: an action that contains no move at any depth never fails, asks no
    sensor and leaves the coordinates as they are. *)
Theorem X3_turns_need_no_sensor (sensors : sensors_t) (a : Action)
  (p : Position) (t : trace) :
  turns_only a = true ->
  res_outcome (Action_execute a sensors p t) = Returns tt
  /\ coordinates (res_state (Action_execute a sensors p t)) = coordinates p
  /\ res_trace (Action_execute a sensors p t) = t.
Proof. intros Hturns. apply (Action_turns_only sensors a Hturns p t). Qed.

(** The half turn bound to [U] in rover_example.cc, under a sensor that
    refuses everything. *)
Lemma X3_turns_need_no_sensor_witness :
  let r := Action_execute (compose [rotate_right; rotate_right])
             [FalseSensor] (mkPosition (mkCoordinates 4 5) NORTH) [] in
  res_outcome r = Returns tt
  /\ coordinates (res_state r) = mkCoordinates 4 5
  /\ res_trace r = [].
Proof.
  exact (X3_turns_need_no_sensor [FalseSensor]
           (compose [rotate_right; rotate_right])
           (mkPosition (mkCoordinates 4 5) NORTH) [] eq_refl).
Defined.

(** ** A step forward and a step back *)

(** The 32-bit value congruent to a given one is unique. *)
Lemma int32_wrap_unique (a u k : Z) :
  int32_range a -> u = a + k * 2 ^ 32 -> int32_wrap u = a.
Proof.
  unfold int32_range, INT32_MIN, INT32_MAX, int32_wrap. intros Ha ->.
  replace (a + k * 2 ^ 32 + 2 ^ 31) with (a + 2 ^ 31 + k * 2 ^ 32) by lia.
  rewrite Z_mod_plus_full, Z.mod_small; lia.
Qed.

Lemma int32_wrap_there_and_back (a d : Z) :
  int32_range a -> int32_wrap (int32_wrap (a + d) + - d) = a.
Proof.
  intros Ha.
  apply (int32_wrap_unique a _ (- ((a + d + 2 ^ 31) / 2 ^ 32)) Ha).
  unfold int32_wrap. rewrite Z.mod_eq by lia. lia.
Qed.

Lemma Coordinates_add_there_and_back (c v : Coordinates) :
  Coordinates_wf c ->
  Coordinates_add (Coordinates_add c v) (Coordinates_negate v) = c.
Proof.
  intros [Hx Hy]. destruct c as [cx cy], v as [vx vy].
  unfold Coordinates_add, Coordinates_negate. cbn [x y] in *.
  rewrite !int32_wrap_there_and_back by assumption. reflexivity.
Qed.

Lemma Coordinates_negate_involutive (v : Coordinates) :
  Coordinates_negate (Coordinates_negate v) = v.
Proof.
  destruct v as [vx vy]. unfold Coordinates_negate. cbn [x y].
  rewrite !Z.opp_involutive. reflexivity.
Qed.

Lemma backward_after_forward (p : Position) :
  Coordinates_wf (coordinates p) ->
  backward_candidate (Position_go_forward p) = p.
Proof.
  intros Hwf. rewrite backward_candidate_translation.
  destruct p as [c d]. unfold backward_translation, Position_go_forward.
  cbn [coordinates direction] in *.
  rewrite get_move_unit_vector, Coordinates_add_there_and_back by exact Hwf.
  reflexivity.
Qed.

Lemma forward_after_backward (p : Position) :
  Coordinates_wf (coordinates p) ->
  Position_go_forward (backward_candidate p) = p.
Proof.
  intros Hwf. rewrite backward_candidate_translation.
  destruct p as [c d]. unfold backward_translation, Position_go_forward.
  cbn [coordinates direction] in *.
  rewrite get_move_unit_vector.
  rewrite <- (Coordinates_negate_involutive (Direction_unit_vector d)) at 2.
  rewrite Coordinates_add_there_and_back by exact Hwf.
  reflexivity.
Qed.

Lemma move_all_safe (a : Action) (sensors : sensors_t) (p : Position)
  (t : trace) :
  a = MoveForward \/ a = MoveBackward ->
  let candidate := match a with
                   | MoveForward => Position_go_forward p
                   | _ => backward_candidate p
                   end in
  Forall (safe_at (coordinates candidate)) sensors ->
  Action_execute a sensors p t =
    mkResult (Returns tt) candidate
      (t ++ map (ask (coordinates candidate)) sensors).
Proof.
  intros [-> | ->]; cbv zeta; intros Hsafe.
  - rewrite MoveForward_run.
    apply (loop_then_put_checks (Position_go_forward p) sensors p t
             (go_forward_moves p)). exact Hsafe.
  - rewrite MoveBackward_run.
    apply (loop_then_put_checks (backward_candidate p) sensors p t
             (backward_candidate_moves p)). exact Hsafe.
Qed.

(** X4: from a position with 32-bit coordinates, a forward move followed
    by a backward move (or a backward move followed by a forward move)
    returns to the same cell and heading when the sensors accept the cell
    stepped on and the cell returned to; this holds at the limits of the
    coordinate range too, where the step wraps around.  The sensors are
    asked about the cell stepped on, then about the starting cell. *)
Theorem X4_step_and_back (sensors : sensors_t) (p : Position) (t : trace) :
  Coordinates_wf (coordinates p) ->
  Forall (safe_at (coordinates p)) sensors ->
  (Forall (safe_at (coordinates (Position_go_forward p))) sensors ->
     (Action_execute MoveForward sensors ;;
      Action_execute MoveBackward sensors) p t
     = mkResult (Returns tt) p
         (t ++ map (ask (coordinates (Position_go_forward p))) sensors
            ++ map (ask (coordinates p)) sensors))
  /\ (Forall (safe_at (coordinates (backward_candidate p))) sensors ->
        (Action_execute MoveBackward sensors ;;
         Action_execute MoveForward sensors) p t
        = mkResult (Returns tt) p
            (t ++ map (ask (coordinates (backward_candidate p))) sensors
               ++ map (ask (coordinates p)) sensors)).
Proof.
  intros Hwf Hhere. split; intros Hthere.
  - pose proof (move_all_safe MoveForward sensors p t (or_introl eq_refl)
                  Hthere) as Hf.
    rewrite (bind_returns _ _ p t tt) by (rewrite Hf; reflexivity).
    rewrite Hf. cbn [res_state res_trace].
    pose proof (move_all_safe MoveBackward sensors (Position_go_forward p)
                  (t ++ map (ask (coordinates (Position_go_forward p)))
                          sensors) (or_intror eq_refl)) as Hb.
    cbv zeta in Hb. rewrite (backward_after_forward p Hwf) in Hb.
    rewrite (Hb Hhere), <- app_assoc. reflexivity.
  - pose proof (move_all_safe MoveBackward sensors p t (or_intror eq_refl)
                  Hthere) as Hb.
    rewrite (bind_returns _ _ p t tt) by (rewrite Hb; reflexivity).
    rewrite Hb. cbn [res_state res_trace].
    pose proof (move_all_safe MoveForward sensors (backward_candidate p)
                  (t ++ map (ask (coordinates (backward_candidate p)))
                          sensors) (or_introl eq_refl)) as Hf.
    cbv zeta in Hf. rewrite (forward_after_backward p Hwf) in Hf.
    rewrite (Hf Hhere), <- app_assoc. reflexivity.
Qed.

(** At the eastern limit of the range the step forward wraps to the western
    limit and the step back returns. *)
Lemma X4_step_and_back_witness :
  let p := mkPosition (mkCoordinates INT32_MAX 0) EAST in
  coordinates (Position_go_forward p) = mkCoordinates INT32_MIN 0
  /\ res_state
       ((Action_execute MoveForward [TrueSensor] ;;
         Action_execute MoveBackward [TrueSensor]) p [])
     = p.
Proof.
  cbv zeta. split; [reflexivity |].
  assert (Hwf : Coordinates_wf (mkCoordinates INT32_MAX 0)).
  { split; vm_compute; intuition discriminate. }
  destruct (X4_step_and_back [TrueSensor]
              (mkPosition (mkCoordinates INT32_MAX 0) EAST) [] Hwf
              ltac:(repeat constructor)) as [Hfb _].
  rewrite Hfb by repeat constructor. reflexivity.
Defined.

(** ** Turning *)

Lemma get_next_to_int (d : Direction) :
  Direction_to_int (DirectionManager.get_next d)
  = (Direction_to_int d + 1) mod 4.
Proof. destruct d; reflexivity. Qed.

Lemma Direction_to_int_inj (d d' : Direction) :
  Direction_to_int d = Direction_to_int d' -> d = d'.
Proof. destruct d, d'; cbn; intros H; try reflexivity; discriminate. Qed.

Lemma iter_get_next_to_int (d : Direction) (k : nat) :
  Direction_to_int (Nat.iter k DirectionManager.get_next d)
  = (Direction_to_int d + Z.of_nat k) mod 4.
Proof.
  induction k as [| k IH].
  - change (Nat.iter 0 DirectionManager.get_next d) with d.
    pose proof (Direction_to_int_range d) as Hd.
    unfold DirectionManager.DIRECTIONS_NO in Hd.
    change (Z.of_nat 0) with 0.
    rewrite Z.add_0_r, Z.mod_small by lia. reflexivity.
  - rewrite Nat.iter_succ, get_next_to_int, IH.
    rewrite Zplus_mod_idemp_l. f_equal. lia.
Qed.

Lemma turns_run (sensors : sensors_t) (k : nat) :
  forall (p : Position) (t : trace),
    Action_execute (Compose (repeat RotateRight k)) sensors p t =
      mkResult (Returns tt)
        {| coordinates := coordinates p;
           direction := Nat.iter k DirectionManager.get_next (direction p) |}
        t.
Proof.
  induction k as [| k IH]; intros p t.
  - destruct p; reflexivity.
  - cbn [repeat]. rewrite Compose_cons_run.
    rewrite (bind_returns _ _ p t tt) by reflexivity.
    rewrite IH. rewrite Nat.iter_succ_r. reflexivity.
Qed.

(** X5: [k] right turns advance the direction by [k] places in the cycle
    of four: the number of the direction reached is the number of the
    starting direction plus [k], modulo 4.  So [k] turns restore the
    heading exactly when [k] is a multiple of 4, different directions have
    different successors, and a [Compose] of [k] right rotations returns,
    asks no sensor and turns the position by [k] places. *)
Theorem X5_turns_add_up (d : Direction) (k : nat) :
  Direction_to_int (Nat.iter k DirectionManager.get_next d)
  = (Direction_to_int d + Z.of_nat k) mod 4
  /\ (Nat.iter k DirectionManager.get_next d = d <-> Z.of_nat k mod 4 = 0)
  /\ (forall d' : Direction,
        DirectionManager.get_next d = DirectionManager.get_next d' -> d = d')
  /\ (forall (sensors : sensors_t) (c : Coordinates) (t : trace),
        Action_execute (Compose (repeat RotateRight k)) sensors
          (mkPosition c d) t
        = mkResult (Returns tt)
            (mkPosition c (Nat.iter k DirectionManager.get_next d)) t).
Proof.
  split; [apply iter_get_next_to_int |].
  split; [| split].
  - pose proof (iter_get_next_to_int d k) as Hk.
    pose proof (Direction_to_int_range d) as Hd.
    unfold DirectionManager.DIRECTIONS_NO in Hd.
    split.
    + intros Heq. rewrite Heq in Hk.
      revert Hk. generalize (Direction_to_int d) (Z.of_nat k) Hd.
      intros i n Hi Hk. Z.to_euclidean_division_equations. lia.
    + intros Hmod. apply Direction_to_int_inj. rewrite Hk.
      revert Hmod. generalize (Direction_to_int d) (Z.of_nat k) Hd.
      intros i n Hi Hmod. Z.to_euclidean_division_equations. lia.
  - intros d' Heq. destruct d, d'; try reflexivity; discriminate.
  - intros sensors c t. apply (turns_run sensors k (mkPosition c d) t).
Qed.

(** ** The two tables and the cycle *)

(** X6: the table of displacements follows the cycle of directions: the
    displacement of the successor of a direction is the displacement of the
    direction turned a quarter turn clockwise; every displacement is one
    cell along one axis; and different directions have different
    displacements and different names. *)
Theorem X6_tables_follow_the_cycle (d : Direction) :
  DirectionManager.get_move (DirectionManager.get_next d)
  = quarter_turn (DirectionManager.get_move d)
  /\ Z.abs (x (DirectionManager.get_move d))
     + Z.abs (y (DirectionManager.get_move d)) = 1
  /\ (forall d' : Direction,
        DirectionManager.get_move d = DirectionManager.get_move d' -> d = d')
  /\ (forall d' : Direction,
        DirectionManager.get_name d = DirectionManager.get_name d' -> d = d').
Proof.
  split; [destruct d; reflexivity |].
  split; [destruct d; reflexivity |].
  split; intros d' Heq; destruct d, d'; try reflexivity; discriminate.
Qed.

(** ** Nested compositions *)

(** X7: nesting does not matter.  An action behaves as the [Compose] of the
    rotations and moves it comes down to, taken in order; a [Compose] of
    one action behaves as that action; and a [Compose] of two lists one
    after the other behaves as the [Compose] of the two [Compose]s. *)
Theorem X7_compose_flattens (sensors : sensors_t) (a : Action)
  (l1 l2 : list Action) (p : Position) (t : trace) :
  Action_execute (Compose (Action_leaves a)) sensors p t
  = Action_execute a sensors p t
  /\ Forall (fun b => is_leaf b = true) (Action_leaves a)
  /\ Action_execute (Compose [a]) sensors p t = Action_execute a sensors p t
  /\ Action_execute (Compose [Compose l1; Compose l2]) sensors p t
     = Action_execute (Compose (l1 ++ l2)) sensors p t.
Proof.
  split; [apply Action_leaves_run |].
  split; [apply Action_leaves_are_leaves |].
  split; [apply Compose_singleton_run |].
  rewrite Compose_app_run, Compose_cons_run.
  unfold mbind, M_bind. cbv zeta.
  destruct (res_outcome (Action_execute (Compose l1) sensors p t))
    as [[] | e]; [| reflexivity].
  apply Compose_singleton_run.
Qed.

Lemma X5_turns_add_up_witness :
  Nat.iter 8 DirectionManager.get_next WEST = WEST.
Proof.
  destruct (X5_turns_add_up WEST 8) as (_ & Hback & _).
  apply Hback. reflexivity.
Defined.

Lemma X6_tables_follow_the_cycle_witness :
  SOUTH = DirectionManager.get_next EAST.
Proof.
  destruct (X6_tables_follow_the_cycle SOUTH) as (_ & _ & _ & Hname).
  apply Hname. reflexivity.
Defined.

(** ** Command lists in pieces *)

Lemma set_stopped_false_id (r : Rover) :
  stopped r = false -> set_stopped false r = r.
Proof. intros H. rewrite <- H. apply set_stopped_same. Qed.

(** X8: on a landed rover, a command list given in two calls does what it
    does in one call, as long as the first part does not stop the rover;
    when the first part stops the rover, the whole list does exactly what
    the first part does. *)
Theorem X8_execute_in_two_calls (r : Rover) (t : trace) (s1 s2 : string) :
  landed r = true ->
  let r1 := Rover_execute s1 r t in
  (stopped (res_state r1) = false ->
     Rover_execute (s1 +:+ s2) r t =
       Rover_execute s2 (res_state r1) (res_trace r1))
  /\ (stopped (res_state r1) = true ->
        Rover_execute (s1 +:+ s2) r t = r1).
Proof.
  intros Hl. cbv zeta. split.
  - intros Hrun.
    destruct (Rover_execute_landed_frame s1 r t Hl) as (_ & Hl1 & _).
    cbv zeta in Hl1.
    rewrite (Rover_execute_landed (s1 +:+ s2) r t Hl). cbv zeta.
    rewrite (Rover_execute_after_prefix r t s1 s2 Hl Hrun).
    rewrite (Rover_execute_landed s2 _ _ Hl1). cbv zeta.
    rewrite (set_stopped_false_id _ Hrun). reflexivity.
  - rewrite !(Rover_execute_landed _ r t Hl). cbv zeta.
    rewrite (commands_loop_app s1 s2 (set_stopped false r) t eq_refl).
    cbv zeta.
    destruct (res_outcome (commands_loop s1 (set_stopped false r) t))
      as [[] | e] eqn:Hout.
    + intros Hstop. rewrite Hstop, Hout. reflexivity.
    + rewrite Hout. reflexivity.
Qed.

(** ["FXFFF"] in one call is ["FX"], which stops at [X]; ["FFF"] in one call
    is ["F"] and then ["FF"]. *)
Lemma X8_execute_in_two_calls_witness :
  Rover_execute "FXFFF" example_rover_at_work []
  = Rover_execute "FX" example_rover_at_work []
  /\ Rover_execute "FFF" example_rover_at_work []
     = Rover_execute "FF"
         (res_state (Rover_execute "F" example_rover_at_work []))
         (res_trace (Rover_execute "F" example_rover_at_work [])).
Proof.
  split.
  - destruct (X8_execute_in_two_calls example_rover_at_work [] "FX" "FFF"
                eq_refl) as [_ Hstopped].
    apply (Hstopped eq_refl).
  - destruct (X8_execute_in_two_calls example_rover_at_work [] "F" "FF"
                eq_refl) as [Hrunning _].
    apply (Hrunning eq_refl).
Defined.

(** The loop treats two lists alike after a common prefix when it treats
    them alike from every state with the same command table. *)
Lemma commands_loop_suffix (X Y : string) (table : gmap ascii Action) :
  (forall (r : Rover) (t : trace),
     commands r = table -> commands_loop X r t = commands_loop Y r t) ->
  forall (pre : string) (r : Rover) (t : trace),
    commands r = table ->
    commands_loop (pre +:+ X) r t = commands_loop (pre +:+ Y) r t.
Proof.
  intros HXY pre. induction pre as [| c pre IH]; intros r t Hr.
  - apply HXY. exact Hr.
  - change (String c pre +:+ X) with (String c (pre +:+ X)).
    change (String c pre +:+ Y) with (String c (pre +:+ Y)).
    destruct (commands r !! c) as [a |] eqn:Hc.
    + rewrite !(commands_loop_bound c _ a r t Hc). cbv zeta.
      destruct (res_outcome (Action_execute a (sensors r) (position r) t));
        [apply IH; exact Hr | reflexivity].
    + rewrite !(commands_loop_unbound c _ r t Hc). reflexivity.
Qed.

Lemma commands_loop_spelled_out (cs : list ascii) (l : list Action)
  (u : ascii) (post : string) :
  forall (r : Rover) (t : trace),
    bound_to r u (Compose l) ->
    Forall2 (bound_to r) cs l ->
    commands_loop (string_of_list_ascii cs +:+ post) r t
    = commands_loop (String u post) r t.
Proof.
  intros r t Hu Hcs.
  rewrite (commands_loop_bound u post (Compose l) r t Hu). cbv zeta.
  clear Hu. revert t.
  assert (Hgen : forall (r' : Rover) (t : trace),
            commands r' = commands r -> sensors r' = sensors r ->
            commands_loop (string_of_list_ascii cs +:+ post) r' t =
            match res_outcome
                    (Action_execute (Compose l) (sensors r) (position r') t)
            with
            | Returns _ =>
                commands_loop post
                  (set_position
                     (res_state
                        (Action_execute (Compose l) (sensors r)
                           (position r') t)) r')
                  (res_trace
                     (Action_execute (Compose l) (sensors r) (position r') t))
            | Throws e =>
                mkResult (Throws e)
                  (set_position
                     (res_state
                        (Action_execute (Compose l) (sensors r)
                           (position r') t)) r')
                  (res_trace
                     (Action_execute (Compose l) (sensors r) (position r') t))
            end).
  { induction Hcs as [| c a cs l Hc _ IH]; intros r' t Hcmd Hsens.
    - cbn [string_of_list_ascii].
      change (""%string +:+ post) with post.
      rewrite Compose_nil_run. cbn [res_outcome res_state res_trace].
      rewrite rover_eta. reflexivity.
    - cbn [string_of_list_ascii].
      change (String c (string_of_list_ascii cs) +:+ post)
        with (String c (string_of_list_ascii cs +:+ post)).
      unfold bound_to in Hc. rewrite <- Hcmd in Hc.
      rewrite (commands_loop_bound c _ a r' t Hc). cbv zeta.
      rewrite Hsens, Compose_cons_run.
      unfold mbind, M_bind. cbv zeta.
      destruct (res_outcome (Action_execute a (sensors r) (position r') t))
        as [[] | e].
      + rewrite (IH (set_position _ r') _ Hcmd Hsens). reflexivity.
      + reflexivity. }
  intros t. apply Hgen; reflexivity.
Qed.

(** X9: a character bound to a [Compose] can be spelled out.  When [u] is
    bound to the [Compose] of some actions and each of these actions is
    bound to a character of its own, a command list with [u] somewhere in
    it does what the list with these characters in the place of [u] does:
    same outcome, same rover, same sensor calls. *)
Theorem X9_compose_spelled_out (r : Rover) (t : trace) (pre post : string)
  (u : ascii) (cs : list ascii) (l : list Action) :
  bound_to r u (Compose l) ->
  Forall2 (bound_to r) cs l ->
  Rover_execute (pre +:+ String u post) r t
  = Rover_execute (pre +:+ (string_of_list_ascii cs +:+ post)) r t.
Proof.
  intros Hu Hcs. unfold Rover_execute, mbind, M_bind, get, try_catch, modify.
  cbn [res_outcome res_state res_trace].
  destruct (landed r); [| reflexivity]. cbn [res_outcome res_state res_trace].
  rewrite (commands_loop_suffix (String u post)
             (string_of_list_ascii cs +:+ post) (commands r));
    [reflexivity | | reflexivity].
  intros r' t' Hcmd.
  symmetry. apply (commands_loop_spelled_out cs l u post r' t').
  - unfold bound_to in *. rewrite Hcmd. exact Hu.
  - eapply Forall2_impl; [exact Hcs |].
    intros c a Hc. unfold bound_to in *. rewrite Hcmd. exact Hc.
Qed.

(** The half turn [U] of rover_example.cc spelled ["RR"]. *)
Lemma X9_compose_spelled_out_witness :
  Rover_execute "FUB" example_rover_at_work []
  = Rover_execute "FRRB" example_rover_at_work [].
Proof.
  apply (X9_compose_spelled_out example_rover_at_work [] "F" "B" "U"
           ["R"; "R"]%char [rotate_right; rotate_right]).
  - reflexivity.
  - repeat constructor.
Defined.

(** ** Straight runs *)

Lemma repeat_command_succ (f : ascii) (n : nat) :
  repeat_command f (Datatypes.S n) = String f (repeat_command f n).
Proof. reflexivity. Qed.

Lemma forward_run (f : ascii) (n : nat) :
  forall (k : nat) (r : Rover) (t : trace),
    bound_to r f MoveForward ->
    (forall i : nat, (1 <= i <= k)%nat ->
       Forall (safe_at
                 (coordinates (Nat.iter i Position_go_forward (position r))))
         (sensors r)) ->
    ((k < n)%nat ->
       ~ Forall (safe_at
                   (coordinates
                      (Nat.iter (Datatypes.S k) Position_go_forward
                         (position r))))
           (sensors r)) ->
    let res := commands_loop (repeat_command f n) r t in
    position (res_state res)
    = Nat.iter (Nat.min n k) Position_go_forward (position r)
    /\ stopped (res_state res) = stopped r
    /\ res_outcome res
       = (if (k <? n)%nat then Throws DangerousField else Returns tt).
Proof.
  induction n as [| n IH]; intros k r t Hf Hsafe Hwall; cbv zeta.
  - cbn. auto.
  - rewrite repeat_command_succ.
    rewrite (commands_loop_bound f _ MoveForward r t Hf). cbv zeta.
    destruct k as [| k].
    + destruct (move_cases MoveForward (sensors r) (position r) t
                  (or_introl eq_refl)) as [(_ & Hok & Hst) | (Hout & Hst)].
      * exfalso. apply (Hwall ltac:(lia)).
        rewrite Hst in Hok. exact Hok.
      * rewrite Hout, Hst. cbn. auto.
    + assert (Hfirst : Forall
                (safe_at (coordinates (Position_go_forward (position r))))
                (sensors r)).
      { apply (Hsafe 1%nat). lia. }
      rewrite (move_all_safe MoveForward (sensors r) (position r) t
                 (or_introl eq_refl) Hfirst).
      cbn [res_outcome res_state res_trace].
      destruct (IH k (set_position (Position_go_forward (position r)) r)
                  (t ++ map (ask (coordinates
                                    (Position_go_forward (position r))))
                          (sensors r))) as (Hpos & Hstop & Hout).
      * exact Hf.
      * intros i Hi. cbn [position sensors set_position].
        rewrite <- Nat.iter_succ_r. apply Hsafe. lia.
      * intros Hlt. cbn [position sensors set_position].
        rewrite <- Nat.iter_succ_r. apply Hwall. lia.
      * cbv zeta in Hpos, Hstop, Hout. rewrite Hpos, Hstop, Hout.
        cbn [position stopped set_position].
        rewrite <- Nat.iter_succ_r. auto.
Qed.

(** X10: a landed rover whose character [f] is bound to the forward move,
    with [k] cells ahead that every sensor accepts, told to go forward [n]
    times: when [n] is at most [k] it advances [n] cells and is not
    stopped; when [n] exceeds [k] and some sensor refuses the cell after
    the [k] accepted ones, it advances exactly to the last accepted cell
    and is stopped.  In both cases [execute] returns. *)
Theorem X10_run_to_the_wall (r : Rover) (t : trace) (f : ascii) (k n : nat) :
  landed r = true ->
  bound_to r f MoveForward ->
  (forall i : nat, (1 <= i <= k)%nat ->
     Forall (safe_at
               (coordinates (Nat.iter i Position_go_forward (position r))))
       (sensors r)) ->
  ((k < n)%nat ->
     ~ Forall (safe_at
                 (coordinates
                    (Nat.iter (Datatypes.S k) Position_go_forward
                       (position r))))
         (sensors r)) ->
  let res := Rover_execute (repeat_command f n) r t in
  res_outcome res = Returns tt
  /\ position (res_state res)
     = Nat.iter (Nat.min n k) Position_go_forward (position r)
  /\ stopped (res_state res) = (k <? n)%nat.
Proof.
  intros Hl Hf Hsafe Hwall. cbv zeta.
  rewrite (Rover_execute_landed _ r t Hl). cbv zeta.
  destruct (forward_run f n k (set_stopped false r) t Hf Hsafe Hwall)
    as (Hpos & Hstop & Hout).
  cbv zeta in Hpos, Hstop, Hout. rewrite Hout.
  destruct (k <? n)%nat.
  - cbn [res_outcome res_state res_trace position stopped set_stopped].
    auto.
  - rewrite Hout, Hpos, Hstop. auto.
Qed.

(** The walled rover has two free cells ahead of the origin and the wall on
    the third: five forward commands take it to (2, 0) and stop it. *)
Lemma X10_run_to_the_wall_witness :
  let res := Rover_execute "FFFFF" walled_rover [] in
  position (res_state res) = mkPosition (mkCoordinates 2 0) EAST
  /\ stopped (res_state res) = true.
Proof.
  cbv zeta.
  destruct (X10_run_to_the_wall walled_rover [] "F" 2 5) as (_ & Hpos & Hstop).
  - reflexivity.
  - reflexivity.
  - intros i Hi. assert (Hcases : i = 1%nat \/ i = 2%nat) by lia.
    destruct Hcases as [-> | ->]; repeat constructor.
  - intros _ Hall. apply Forall_inv in Hall. vm_compute in Hall.
    discriminate.
  - change (repeat_command "F" 5) with "FFFFF"%string in Hpos, Hstop.
    split; [rewrite Hpos | rewrite Hstop]; reflexivity.
Defined.

(** ** Starting afresh *)

(** X11: [land] and [execute] forget what came before.  After [land] the
    display is exactly "(x, y) DIRNAME" for the landing cell and heading,
    without the stopped suffix, whatever state the rover was in; the rover
    that [land] leaves depends on the old rover only through its command
    table and sensor list; and on a landed rover [execute] does the same
    whether or not the rover was stopped before. *)
Theorem X11_fresh_start (r : Rover) (t : trace) (c : Coordinates)
  (d : Direction) :
  get_string_in_ostream (res_state (Rover_land c d r t))
  = landed_display (mkPosition c d) false
  /\ (forall r' : Rover,
        commands r' = commands r -> sensors r' = sensors r ->
        Rover_land c d r' t = Rover_land c d r t)
  /\ (forall (s : string) (b : bool),
        landed r = true ->
        Rover_execute s (set_stopped b r) t = Rover_execute s r t).
Proof.
  split; [| split].
  - rewrite Rover_land_run. unfold get_string_in_ostream.
    rewrite Rover_print_landed by reflexivity. reflexivity.
  - intros r' Hc Hs. rewrite !Rover_land_run, Hc, Hs. reflexivity.
  - intros s b Hl.
    rewrite (Rover_execute_landed s (set_stopped b r) t Hl).
    rewrite (Rover_execute_landed s r t Hl). reflexivity.
Qed.

(** The rover stopped at the unbound [X] runs ["FFF"] as if it had not been
    stopped. *)
Lemma X11_fresh_start_witness :
  let stopped_rover :=
    res_state (Rover_execute "FXFFF" example_rover_at_work []) in
  stopped stopped_rover = true
  /\ Rover_execute "FFF" stopped_rover []
     = Rover_execute "FFF" (set_stopped false stopped_rover) [].
Proof.
  cbv zeta. split; [reflexivity |].
  destruct (X11_fresh_start
              (set_stopped false
                 (res_state (Rover_execute "FXFFF" example_rover_at_work [])))
              [] (mkCoordinates 0 0) NORTH) as (_ & _ & Hretry).
  apply (Hretry "FFF"%string true eq_refl).
Defined.

(** ** The builder *)

(** X12: a rover built after [program_command c a] has [a] bound to [c]
    and every other character bound as before; programming the same
    character again replaces the binding, and the order in which different
    characters are programmed does not matter; [add_sensor] puts the sensor
    after those added before and commutes with [program_command]; the rover
    built is not landed and not stopped, and a new builder binds nothing. *)
Theorem X12_builder (b : RoverBuilder) (c c' : ascii) (a a' : Action)
  (s : Sensor) :
  commands (build (program_command c a b)) !! c = Some a
  /\ (c <> c' ->
        commands (build (program_command c a b)) !! c'
        = commands (build b) !! c')
  /\ program_command c a' (program_command c a b) = program_command c a' b
  /\ (c <> c' ->
        program_command c a (program_command c' a' b)
        = program_command c' a' (program_command c a b))
  /\ sensors (build (add_sensor s b)) = sensors (build b) ++ [s]
  /\ commands (build (add_sensor s b)) = commands (build b)
  /\ add_sensor s (program_command c a b)
     = program_command c a (add_sensor s b)
  /\ landed (build b) = false
  /\ stopped (build b) = false
  /\ commands (build RoverBuilder_new) !! c = None.
Proof.
  destruct b as [table sens].
  unfold build, program_command, add_sensor, Rover_new, RoverBuilder_new.
  cbn [commands sensors landed stopped builder_commands builder_sensors].
  repeat split.
  - apply lookup_insert_eq.
  - intros Hne. apply lookup_insert_ne. exact Hne.
  - rewrite insert_insert_eq. reflexivity.
  - intros Hne. rewrite insert_insert_ne by exact Hne. reflexivity.
Qed.

Lemma X12_builder_witness :
  commands (build (program_command "F" move_backward
                     (program_command "F" move_forward RoverBuilder_new)))
    !! "B"%char = None.
Proof.
  destruct (X12_builder (program_command "F" move_forward RoverBuilder_new)
              "F" "B" move_backward move_forward TrueSensor)
    as (_ & Hother & _).
  rewrite Hother by discriminate.
  destruct (X12_builder RoverBuilder_new "F" "B" move_forward move_forward
              TrueSensor) as (_ & Hother' & _ & _ & _ & _ & _ & _ & _ & _).
  rewrite Hother' by discriminate.
  destruct (X12_builder RoverBuilder_new "B" "B" move_forward move_forward
              TrueSensor) as (_ & _ & _ & _ & _ & _ & _ & _ & _ & Hnew).
  exact Hnew.
Defined.

(** ** The display tells the state *)

Lemma free_of_split (c : ascii) (s1 : string) :
  forall (s2 r1 r2 : string),
    free_of c s1 -> free_of c s2 ->
    (s1 +:+ String c r1 = s2 +:+ String c r2)%string ->
    s1 = s2 /\ r1 = r2.
Proof.
  induction s1 as [| a s1 IH]; intros [| b s2] r1 r2 H1 H2 Heq.
  - change (String c r1 = String c r2) in Heq.
    injection Heq as Hr. auto.
  - change (String c r1 = String b (s2 +:+ String c r2)) in Heq.
    injection Heq as Hc _. destruct H2 as [Hb _]. congruence.
  - change (String a (s1 +:+ String c r1) = String c r2) in Heq.
    injection Heq as Hc _. destruct H1 as [Ha _]. congruence.
  - change (String a (s1 +:+ String c r1) = String b (s2 +:+ String c r2))
      in Heq.
    injection Heq as Hab Hrest.
    destruct H1 as [_ H1], H2 as [_ H2].
    destruct (IH s2 r1 r2 H1 H2 Hrest) as [-> ->]. subst b. auto.
Qed.

(** A numeral is made of digits, after a minus sign at most: neither a
    comma nor a closing parenthesis occurs in it. *)
Lemma numeral_free_of (c : ascii) (n : Z) :
  c = ","%char \/ c = ")"%char -> free_of c (decimal n).
Proof.
  intros Hc.
  assert (Hdigits : forall d : Decimal.uint,
             free_of c (NilEmpty.string_of_uint d)).
  { induction d; cbn [NilEmpty.string_of_uint free_of];
      try exact I; (split; [| assumption]);
      destruct Hc as [-> | ->]; discriminate. }
  assert (Huint : forall d : Decimal.uint,
             free_of c (NilZero.string_of_uint d)).
  { intros d. destruct d; try apply Hdigits.
    cbn. split; [| exact I]. destruct Hc as [-> | ->]; discriminate. }
  unfold decimal. destruct (Z.to_int n) as [d | d];
    cbn [NilZero.string_of_int].
  - apply Huint.
  - cbn [free_of]. split; [| apply Huint].
    destruct Hc as [-> | ->]; discriminate.
Qed.

Lemma decimal_inj (n n' : Z) : decimal n = decimal n' -> n = n'.
Proof.
  intros Heq. pose proof (decimal_parses n) as Hn.
  rewrite Heq, decimal_parses in Hn. congruence.
Qed.

Lemma landed_display_inj (p p' : Position) (b b' : bool) :
  landed_display p b = landed_display p' b' -> p = p' /\ b = b'.
Proof.
  destruct p as [[px py] d], p' as [[px' py'] d'].
  unfold landed_display. cbn [coordinates direction x y].
  intros Heq.
  change (String "(" (decimal px +:+ String ","
            (String " " (decimal py +:+ String ")"
               (String " " (Direction_display_name d
                            +:+ (if b then " stopped" else ""))))))
          = String "(" (decimal px' +:+ String ","
              (String " " (decimal py' +:+ String ")"
                 (String " " (Direction_display_name d'
                              +:+ (if b' then " stopped" else "")))))))%string
    in Heq.
  injection Heq as Heq.
  apply free_of_split in Heq as [Hx Heq];
    try (apply numeral_free_of; left; reflexivity).
  injection Heq as Heq.
  apply free_of_split in Heq as [Hy Heq];
    try (apply numeral_free_of; right; reflexivity).
  injection Heq as Heq.
  apply decimal_inj in Hx, Hy. subst px' py'.
  destruct d, d', b, b'; try discriminate Heq; auto.
Qed.

(** X13: the display tells the state.  Two rovers with the same display
    are both landed or both not, and when they are landed they have the
    same coordinates, the same direction and the same stopped flag. *)
Theorem X13_display_tells_the_state (r1 r2 : Rover) :
  get_string_in_ostream r1 = get_string_in_ostream r2 ->
  landed r1 = landed r2
  /\ (landed r1 = true ->
        position r1 = position r2 /\ stopped r1 = stopped r2).
Proof.
  unfold get_string_in_ostream. intros Heq.
  destruct (landed r1) eqn:Hl1, (landed r2) eqn:Hl2.
  - rewrite !Rover_print_landed in Heq by assumption.
    split; [reflexivity |]. intros _.
    apply landed_display_inj. exact Heq.
  - rewrite Rover_print_landed, Rover_print_unlanded in Heq by assumption.
    exfalso. exact (landed_display_not_unknown _ _ Heq).
  - rewrite Rover_print_unlanded, Rover_print_landed in Heq by assumption.
    exfalso. symmetry in Heq. exact (landed_display_not_unknown _ _ Heq).
  - split; [reflexivity | discriminate].
Qed.

(** The second rover of rover_example.cc landed where the first one is
    after ["FFBRLU"] prints the same text: same position, same flag. *)
Lemma X13_display_tells_the_state_witness :
  let r2 := res_state
              (Rover_land (mkCoordinates 1 0) WEST broken_rover []) in
  position example_rover_at_work = position r2
  /\ stopped example_rover_at_work = stopped r2.
Proof.
  cbv zeta.
  destruct (X13_display_tells_the_state example_rover_at_work
              (res_state
                 (Rover_land (mkCoordinates 1 0) WEST broken_rover [])))
    as [_ Hsame].
  - reflexivity.
  - apply Hsame. reflexivity.
Defined.

(** ** Coordinates stay 32-bit values *)

Lemma go_forward_wf (p : Position) :
  Coordinates_wf (coordinates (Position_go_forward p)).
Proof. split; apply int32_wrap_range. Qed.

Lemma backward_candidate_wf (p : Position) :
  Coordinates_wf (coordinates (backward_candidate p)).
Proof. split; apply int32_wrap_range. Qed.

Lemma sensors_loop_wf {S : Type} (np : Position) (sensors : sensors_t) :
  Coordinates_wf (coordinates np) ->
  forall (s : S) (t : trace),
    Forall query_wf t ->
    Forall query_wf (res_trace (sensors_loop np sensors s t)).
Proof.
  intros Hwf. induction sensors as [| u rest IH]; intros s t Ht.
  - exact Ht.
  - rewrite sensors_loop_cons.
    assert (Ht' : Forall query_wf (t ++ [ask (coordinates np) u])).
    { apply Forall_app. split; [exact Ht |]. repeat constructor; apply Hwf. }
    destruct (Sensor_is_safe u _ _); [apply IH |]; exact Ht'.
Qed.

Lemma loop_then_put_wf (candidate : Position) (sensors : sensors_t)
  (p : Position) (t : trace) :
  Coordinates_wf (coordinates candidate) ->
  Coordinates_wf (coordinates p) -> Forall query_wf t ->
  let r := (sensors_loop candidate sensors ;; put candidate) p t in
  Coordinates_wf (coordinates (res_state r)) /\ Forall query_wf (res_trace r).
Proof.
  intros Hc Hp Ht. cbv zeta.
  pose proof (sensors_loop_wf candidate sensors Hc p t Ht) as Hloop.
  destruct (sensors_split (coordinates candidate) sensors)
    as [Hall | (pre & u & post & Heq & Hpre & Hu)].
  - pose proof (sensors_loop_all_safe candidate sensors p t Hall) as Hrun.
    rewrite (bind_returns _ _ p t tt) by (rewrite Hrun; reflexivity).
    cbn. auto.
  - subst sensors.
    pose proof (sensors_loop_first_unsafe candidate pre u post p t Hpre Hu)
      as Hrun.
    rewrite (bind_throws _ _ p t DangerousField)
      by (rewrite Hrun; reflexivity).
    cbn [res_state res_trace]. rewrite Hrun at 1. cbn [res_state]. auto.
Qed.

Lemma Action_keeps_wf (sensors : sensors_t) (a : Action) :
  forall (p : Position) (t : trace),
    Coordinates_wf (coordinates p) -> Forall query_wf t ->
    let r := Action_execute a sensors p t in
    Coordinates_wf (coordinates (res_state r)) /\ Forall query_wf (res_trace r).
Proof.
  induction a as [ | | | | l IHl] using Action_children_ind;
    intros p t Hp Ht; cbv zeta.
  - cbn. auto.
  - cbn. auto.
  - rewrite MoveForward_run.
    apply loop_then_put_wf; [apply go_forward_wf | exact Hp | exact Ht].
  - rewrite MoveBackward_run.
    apply loop_then_put_wf; [apply backward_candidate_wf | exact Hp | exact Ht].
  - revert p t Hp Ht. induction IHl as [| a l Ha _ IH]; intros p t Hp Ht.
    + cbn. auto.
    + rewrite Compose_cons_run. unfold mbind, M_bind. cbv zeta.
      destruct (Ha p t Hp Ht) as [Hp' Ht'].
      destruct (res_outcome (Action_execute a sensors p t)) as [[] | e].
      * apply IH; assumption.
      * cbn. auto.
Qed.

Lemma commands_loop_keeps_wf (s : string) :
  forall (r : Rover) (t : trace),
    Coordinates_wf (coordinates (position r)) -> Forall query_wf t ->
    let res := commands_loop s r t in
    Coordinates_wf (coordinates (position (res_state res)))
    /\ Forall query_wf (res_trace res).
Proof.
  induction s as [| c rest IH]; intros r t Hr Ht; cbv zeta.
  - cbn. auto.
  - destruct (commands r !! c) as [a |] eqn:Hc.
    + rewrite (commands_loop_bound c rest a r t Hc). cbv zeta.
      destruct (Action_keeps_wf (sensors r) a (position r) t Hr Ht)
        as [Hp' Ht'].
      destruct (res_outcome (Action_execute a (sensors r) (position r) t))
        as [[] | e].
      * apply (IH (set_position _ r)); assumption.
      * cbn. auto.
    + rewrite (commands_loop_unbound c rest r t Hc). cbn. auto.
Qed.

(** X14: coordinates stay 32-bit values.  From a position whose
    coordinates are in the [int32_t] range, every action, and every
    [execute] of a command list, leaves coordinates in that range, and
    every sensor is called with two values in that range. *)
Theorem X14_coordinates_stay_in_range :
  (forall (sensors : sensors_t) (a : Action) (p : Position) (t : trace),
     Coordinates_wf (coordinates p) -> Forall query_wf t ->
     Coordinates_wf
       (coordinates (res_state (Action_execute a sensors p t)))
     /\ Forall query_wf (res_trace (Action_execute a sensors p t)))
  /\ (forall (s : string) (r : Rover) (t : trace),
        Coordinates_wf (coordinates (position r)) -> Forall query_wf t ->
        Coordinates_wf
          (coordinates (position (res_state (Rover_execute s r t))))
        /\ Forall query_wf (res_trace (Rover_execute s r t))).
Proof.
  split.
  - intros sensors a p t. apply Action_keeps_wf.
  - intros s r t Hr Ht. destruct (landed r) eqn:Hl.
    + rewrite (Rover_execute_landed s r t Hl). cbv zeta.
      pose proof (commands_loop_keeps_wf s (set_stopped false r) t Hr Ht)
        as Hloop. cbv zeta in Hloop.
      destruct (res_outcome (commands_loop s (set_stopped false r) t));
        exact Hloop.
    + rewrite (Rover_execute_unlanded s r t Hl). auto.
Qed.

(** A rover landed on the eastern limit, facing east, steps to the western
    limit: still a 32-bit value. *)
Lemma X14_coordinates_stay_in_range_witness :
  let r :=
    res_state (Rover_land (mkCoordinates INT32_MAX 0) EAST example_rover []) in
  x (coordinates (position (res_state (Rover_execute "F" r [])))) = INT32_MIN
  /\ Coordinates_wf
       (coordinates (position (res_state (Rover_execute "F" r [])))).
Proof.
  cbv zeta. split; [reflexivity |].
  destruct X14_coordinates_stay_in_range as [_ Hrun].
  apply Hrun.
  - split; vm_compute; intuition discriminate.
  - constructor.
Defined.

(** ** The backward move and its spelling *)

Lemma turned_twice_differs (p : Position) :
  Position_turn_right (Position_turn_right p) <> p.
Proof.
  destruct p as [c d]. unfold Position_turn_right. cbn [coordinates direction].
  intros Heq. injection Heq as Hd. destruct d; discriminate.
Qed.

Lemma spelled_backward_run (sensors : sensors_t) (p : Position) (t : trace) :
  Action_execute spelled_backward sensors p t =
    (Action_execute MoveForward sensors ;;
     Action_execute (Compose [RotateRight; RotateRight]) sensors)
      (Position_turn_right (Position_turn_right p)) t.
Proof. reflexivity. Qed.

(** X15: the backward move is the half turn, forward move, half turn that
    it is derived from only as long as the sensors accept the cell behind.
    When they do, [MoveBackward] and the spelled-out [Compose] give the
    same result.  When a sensor refuses, both fail with DangerousField
    after the same sensor calls, but [MoveBackward] leaves the position as
    it was while the spelled-out [Compose] leaves the rover turned
    around. *)
Theorem X15_backward_is_atomic (sensors : sensors_t) (p : Position)
  (t : trace) :
  let behind := coordinates (backward_candidate p) in
  let direct := Action_execute MoveBackward sensors p t in
  let spelled := Action_execute spelled_backward sensors p t in
  (Forall (safe_at behind) sensors -> spelled = direct)
  /\ (~ Forall (safe_at behind) sensors ->
        res_outcome direct = Throws DangerousField
        /\ res_outcome spelled = Throws DangerousField
        /\ res_trace spelled = res_trace direct
        /\ res_state direct = p
        /\ res_state spelled = Position_turn_right (Position_turn_right p)
        /\ res_state spelled <> res_state direct).
Proof.
  cbv zeta. rewrite spelled_backward_run.
  set (p2 := Position_turn_right (Position_turn_right p)).
  assert (Hcell : coordinates (Position_go_forward p2)
                  = coordinates (backward_candidate p)) by reflexivity.
  assert (Hback : Position_turn_right
                    (Position_turn_right (Position_go_forward p2))
                  = backward_candidate p) by reflexivity.
  destruct (loop_then_put_checks (Position_go_forward p2) sensors p2 t
              (go_forward_moves p2)) as (Hf_safe & Hf_unsafe & _).
  rewrite <- MoveForward_run in Hf_safe, Hf_unsafe.
  destruct (loop_then_put_checks (backward_candidate p) sensors p t
              (backward_candidate_moves p)) as (Hb_safe & Hb_unsafe & _).
  rewrite <- MoveBackward_run in Hb_safe, Hb_unsafe.
  rewrite Hcell in Hf_safe, Hf_unsafe.
  split.
  - intros Hall.
    rewrite (bind_returns _ _ p2 t tt) by (rewrite (Hf_safe Hall); reflexivity).
    rewrite (Hf_safe Hall), (Hb_safe Hall).
    cbn [res_state res_trace]. rewrite <- Hback. reflexivity.
  - intros Hnot.
    destruct (sensors_split (coordinates (backward_candidate p)) sensors)
      as [Hall | (pre & u & post & Heq & Hpre & Hu)]; [contradiction |].
    rewrite (bind_throws _ _ p2 t DangerousField)
      by (rewrite (Hf_unsafe pre u post Heq Hpre Hu); reflexivity).
    rewrite (Hf_unsafe pre u post Heq Hpre Hu),
      (Hb_unsafe pre u post Heq Hpre Hu).
    cbn [res_outcome res_state res_trace].
    repeat split. apply turned_twice_differs.
Qed.

(** Under the sensor that refuses everything the spelled-out move turns
    the position around and the backward move does not. *)
Lemma X15_backward_is_atomic_witness :
  let p := mkPosition (mkCoordinates 0 0) NORTH in
  res_state (Action_execute spelled_backward [FalseSensor] p [])
  = mkPosition (mkCoordinates 0 0) SOUTH
  /\ res_state (Action_execute MoveBackward [FalseSensor] p []) = p
  /\ Action_execute spelled_backward [TrueSensor] p []
     = Action_execute MoveBackward [TrueSensor] p [].
Proof.
  cbv zeta.
  destruct (X15_backward_is_atomic [FalseSensor]
              (mkPosition (mkCoordinates 0 0) NORTH) []) as [_ Hfail].
  destruct Hfail as (_ & _ & _ & Hdirect & Hspelled & _).
  { intros Hall. apply Forall_inv in Hall. discriminate Hall. }
  destruct (X15_backward_is_atomic [TrueSensor]
              (mkPosition (mkCoordinates 0 0) NORTH) []) as [Hsame _].
  split; [rewrite Hspelled; reflexivity |].
  split; [exact Hdirect |].
  apply Hsame. repeat constructor.
Defined.

(** ** Many steps at once *)

Lemma int32_wrap_add_l (a b : Z) :
  int32_wrap (int32_wrap a + b) = int32_wrap (a + b).
Proof.
  apply (int32_wrap_unique (int32_wrap (a + b)) _
           ((a + b + 2 ^ 31) / 2 ^ 32 - (a + 2 ^ 31) / 2 ^ 32)).
  - apply int32_wrap_range.
  - unfold int32_wrap. rewrite !Z.mod_eq by lia.
    generalize ((a + 2 ^ 31) / 2 ^ 32) ((a + b + 2 ^ 31) / 2 ^ 32).
    intros q1 q2. lia.
Qed.

Lemma iter_go_forward (n : nat) (p : Position) :
  Coordinates_wf (coordinates p) ->
  Nat.iter n Position_go_forward p = cells_ahead n p.
Proof.
  intros [Hx Hy]. induction n as [| n IH].
  - destruct p as [[px py] d]. unfold cells_ahead.
    cbn [Nat.iter nat_rect coordinates direction x y] in *.
    change (Z.of_nat 0) with 0.
    rewrite !Z.mul_0_l, !Z.add_0_r, !int32_wrap_id by assumption.
    reflexivity.
  - rewrite Nat.iter_succ, IH. unfold cells_ahead, Position_go_forward,
      Coordinates_add. cbn [coordinates direction x y].
    rewrite !int32_wrap_add_l, Nat2Z.inj_succ.
    f_equal. f_equal; f_equal; ring.
Qed.

Lemma forward_moves_run (sensors : sensors_t) (n : nat) :
  all_clear sensors ->
  forall (p : Position) (t : trace),
    let r := Action_execute (Compose (repeat MoveForward n)) sensors p t in
    res_outcome r = Returns tt
    /\ res_state r = Nat.iter n Position_go_forward p.
Proof.
  intros Hclear. induction n as [| n IH]; intros p t; cbv zeta.
  - cbn. auto.
  - cbn [repeat]. rewrite Compose_cons_run.
    pose proof (move_all_safe MoveForward sensors p t (or_introl eq_refl)
                  (all_clear_safe sensors _ Hclear)) as Hstep.
    rewrite (bind_returns _ _ p t tt) by (rewrite Hstep; reflexivity).
    rewrite Hstep. cbn [res_state res_trace].
    destruct (IH (Position_go_forward p)
                (t ++ map (ask (coordinates (Position_go_forward p))) sensors))
      as [Hout Hst].
    rewrite Hout, Hst, Nat.iter_succ_r. auto.
Qed.

(** X16: [n] steps forward from a position with 32-bit coordinates are one
    translation by [n] times the displacement of the heading, wrapped once
    into the 32-bit range; the heading does not change.  When the
    translated coordinates are in the range, nothing wraps.  With sensors
    that refuse nothing, a [Compose] of [n] forward moves succeeds and ends
    there. *)
Theorem X16_steps_add_up (n : nat) (p : Position) :
  Coordinates_wf (coordinates p) ->
  let v := DirectionManager.get_move (direction p) in
  let far := mkCoordinates (x (coordinates p) + Z.of_nat n * x v)
               (y (coordinates p) + Z.of_nat n * y v) in
  Nat.iter n Position_go_forward p = cells_ahead n p
  /\ (Coordinates_wf far ->
        Nat.iter n Position_go_forward p = mkPosition far (direction p))
  /\ (forall (sensors : sensors_t) (t : trace),
        all_clear sensors ->
        res_outcome
          (Action_execute (Compose (repeat MoveForward n)) sensors p t)
        = Returns tt
        /\ res_state
             (Action_execute (Compose (repeat MoveForward n)) sensors p t)
           = cells_ahead n p).
Proof.
  intros Hwf. cbv zeta. split; [apply iter_go_forward; exact Hwf |].
  split.
  - intros [Hfx Hfy]. cbn [x y] in Hfx, Hfy.
    rewrite (iter_go_forward n p Hwf). unfold cells_ahead. cbv zeta.
    rewrite !int32_wrap_id by assumption. reflexivity.
  - intros sensors t Hclear.
    destruct (forward_moves_run sensors n Hclear p t) as [Hout Hst].
    rewrite Hout, Hst, (iter_go_forward n p Hwf). auto.
Qed.

(** A thousand steps west from the origin. *)
Lemma X16_steps_add_up_witness :
  Nat.iter 1000 Position_go_forward (mkPosition (mkCoordinates 0 0) WEST)
  = mkPosition (mkCoordinates (-1000) 0) WEST.
Proof.
  destruct (X16_steps_add_up 1000 (mkPosition (mkCoordinates 0 0) WEST))
    as (_ & Hplain & _).
  - split; vm_compute; intuition discriminate.
  - apply Hplain. split; vm_compute; intuition discriminate.
Defined.

(** ** The order of the sensors *)

Lemma same_sensors_all_safe (c : Coordinates) (l l' : sensors_t) :
  same_sensors l l' -> Forall (safe_at c) l -> Forall (safe_at c) l'.
Proof.
  intros Hsame Hall. apply List.Forall_forall. intros s Hs.
  apply (proj1 (List.Forall_forall _ _) Hall). apply Hsame. exact Hs.
Qed.

Lemma same_sensors_sym (l l' : sensors_t) :
  same_sensors l l' -> same_sensors l' l.
Proof. intros H s. symmetry. apply H. Qed.

Lemma loop_then_put_same_sensors (candidate : Position)
  (l l' : sensors_t) (p : Position) (t t' : trace) :
  candidate <> p -> same_sensors l l' ->
  let r := (sensors_loop candidate l ;; put candidate) p t in
  let r' := (sensors_loop candidate l' ;; put candidate) p t' in
  res_outcome r = res_outcome r' /\ res_state r = res_state r'.
Proof.
  intros Hmoves Hsame. cbv zeta.
  destruct (loop_then_put_checks candidate l p t Hmoves)
    as (Hsafe & Hunsafe & _).
  destruct (loop_then_put_checks candidate l' p t' Hmoves)
    as (Hsafe' & Hunsafe' & _).
  destruct (sensors_split (coordinates candidate) l)
    as [Hall | (pre & u & post & Heq & Hpre & Hu)];
    destruct (sensors_split (coordinates candidate) l')
      as [Hall' | (pre' & u' & post' & Heq' & Hpre' & Hu')].
  - rewrite (Hsafe Hall), (Hsafe' Hall'). auto.
  - exfalso. subst l'.
    apply (unsafe_not_all_safe _ pre' u' post' Hu').
    apply (same_sensors_all_safe _ l); assumption.
  - exfalso. subst l.
    apply (unsafe_not_all_safe _ pre u post Hu).
    apply (same_sensors_all_safe _ l'); [apply same_sensors_sym |]; assumption.
  - rewrite (Hunsafe pre u post Heq Hpre Hu),
      (Hunsafe' pre' u' post' Heq' Hpre' Hu'). auto.
Qed.

Lemma Action_same_sensors (l l' : sensors_t) (a : Action) :
  same_sensors l l' ->
  forall (p : Position) (t t' : trace),
    res_outcome (Action_execute a l p t)
    = res_outcome (Action_execute a l' p t')
    /\ res_state (Action_execute a l p t)
       = res_state (Action_execute a l' p t').
Proof.
  intros Hsame.
  induction a as [ | | | | acts IHl] using Action_children_ind;
    intros p t t'.
  - cbn. auto.
  - cbn. auto.
  - rewrite !MoveForward_run.
    apply loop_then_put_same_sensors; [apply go_forward_moves | exact Hsame].
  - rewrite !MoveBackward_run.
    apply loop_then_put_same_sensors;
      [apply backward_candidate_moves | exact Hsame].
  - revert p t t'. induction IHl as [| a acts Ha _ IH]; intros p t t'.
    + cbn. auto.
    + rewrite !Compose_cons_run. unfold mbind, M_bind. cbv zeta.
      destruct (Ha p t t') as [Hout Hst]. rewrite <- Hout, <- Hst.
      destruct (res_outcome (Action_execute a l p t)) as [[] | e].
      * apply IH.
      * cbn. auto.
Qed.

Lemma same_but_sensor_order_set_position (p : Position) (r r' : Rover) :
  same_but_sensor_order r r' ->
  same_but_sensor_order (set_position p r) (set_position p r').
Proof.
  intros (Hl & Hs & _ & Hc & Hsens). repeat split; try assumption;
    apply Hsens.
Qed.

Lemma same_but_sensor_order_set_stopped (b : bool) (r r' : Rover) :
  same_but_sensor_order r r' ->
  same_but_sensor_order (set_stopped b r) (set_stopped b r').
Proof.
  intros (Hl & _ & Hp & Hc & Hsens). repeat split; try assumption;
    apply Hsens.
Qed.

Lemma commands_loop_same_sensors (s : string) :
  forall (r r' : Rover) (t t' : trace),
    same_but_sensor_order r r' ->
    res_outcome (commands_loop s r t) = res_outcome (commands_loop s r' t')
    /\ same_but_sensor_order (res_state (commands_loop s r t))
         (res_state (commands_loop s r' t')).
Proof.
  induction s as [| c rest IH]; intros r r' t t' Hsame.
  - cbn. auto.
  - pose proof Hsame as (_ & _ & Hp & Hc & Hsens).
    destruct (commands r !! c) as [a |] eqn:Hlook.
    + rewrite (commands_loop_bound c rest a r t Hlook).
      rewrite (commands_loop_bound c rest a r' t')
        by (rewrite <- Hc; exact Hlook).
      cbv zeta. rewrite <- Hp.
      destruct (Action_same_sensors (sensors r) (sensors r') a Hsens
                  (position r) t t') as [Hout Hst].
      rewrite <- Hout, <- Hst.
      destruct (res_outcome (Action_execute a (sensors r) (position r) t))
        as [[] | e].
      * apply IH. apply same_but_sensor_order_set_position. exact Hsame.
      * cbn [res_outcome res_state]. split; [reflexivity |].
        apply same_but_sensor_order_set_position. exact Hsame.
    + rewrite (commands_loop_unbound c rest r t Hlook).
      rewrite (commands_loop_unbound c rest r' t')
        by (rewrite <- Hc; exact Hlook).
      cbn [res_outcome res_state]. split; [reflexivity |].
      apply same_but_sensor_order_set_stopped. exact Hsame.
Qed.

(** X17: the order of the sensors, and a sensor being added more than once,
    change nothing but which sensors get asked.  With two sensor lists that
    hold the same sensors every action has the same outcome and leaves the
    same position, and two rovers that differ in this way only have, after
    [execute] of the same command list, the same outcome, the same flags,
    the same position and the same display. *)
Theorem X17_sensor_order_is_immaterial :
  (forall (l l' : sensors_t) (a : Action) (p : Position) (t t' : trace),
     same_sensors l l' ->
     res_outcome (Action_execute a l p t)
     = res_outcome (Action_execute a l' p t')
     /\ res_state (Action_execute a l p t)
        = res_state (Action_execute a l' p t'))
  /\ (forall (s : string) (r r' : Rover) (t t' : trace),
        same_but_sensor_order r r' ->
        res_outcome (Rover_execute s r t) = res_outcome (Rover_execute s r' t')
        /\ same_but_sensor_order (res_state (Rover_execute s r t))
             (res_state (Rover_execute s r' t'))
        /\ get_string_in_ostream (res_state (Rover_execute s r t))
           = get_string_in_ostream (res_state (Rover_execute s r' t'))).
Proof.
  split.
  - intros l l' a p t t' Hsame. apply Action_same_sensors. exact Hsame.
  - intros s r r' t t' Hsame.
    assert (Hrun : res_outcome (Rover_execute s r t)
                   = res_outcome (Rover_execute s r' t')
                   /\ same_but_sensor_order (res_state (Rover_execute s r t))
                        (res_state (Rover_execute s r' t'))).
    { pose proof Hsame as (Hl & _).
      destruct (landed r) eqn:Hlr.
      - symmetry in Hl.
        rewrite (Rover_execute_landed s r t Hlr),
          (Rover_execute_landed s r' t' Hl). cbv zeta.
        destruct (commands_loop_same_sensors s (set_stopped false r)
                    (set_stopped false r') t t'
                    (same_but_sensor_order_set_stopped false r r' Hsame))
          as [Hout Hst].
        rewrite <- Hout.
        destruct (res_outcome (commands_loop s (set_stopped false r) t))
          eqn:Ho.
        + split; [congruence | exact Hst].
        + cbn [res_outcome res_state]. split; [reflexivity |].
          apply same_but_sensor_order_set_stopped. exact Hst.
      - symmetry in Hl.
        rewrite (Rover_execute_unlanded s r t Hlr),
          (Rover_execute_unlanded s r' t' Hl). auto. }
    destruct Hrun as [Hout Hst]. split; [exact Hout |].
    split; [exact Hst |].
    destruct Hst as (Hl & Hs & Hp & _).
    unfold get_string_in_ostream, Rover_print. rewrite Hl, Hs, Hp.
    reflexivity.
Qed.

(** The walled rover with its wall sensor added twice: ["FFFFF"] ends with
    the same display. *)
Lemma X17_sensor_order_is_immaterial_witness :
  let r' := {| landed := landed walled_rover;
               stopped := stopped walled_rover;
               position := position walled_rover;
               commands := commands walled_rover;
               sensors := [WallSensor 3; WallSensor 3] |} in
  get_string_in_ostream (res_state (Rover_execute "FFFFF" walled_rover []))
  = get_string_in_ostream (res_state (Rover_execute "FFFFF" r' [])).
Proof.
  cbv zeta.
  destruct X17_sensor_order_is_immaterial as [_ Hrun].
  apply Hrun. repeat split; try reflexivity.
  - intros [<- | []]. left. reflexivity.
  - intros [<- | [<- | []]]; left; reflexivity.
Defined.
